(** * Radio group (headlessui-vue): registration, roving focus, role normalization

    Shallow embedding of
    [packages/@headlessui-vue/src/components/radio-group/radio-group.ts].

    The component is stateful: the group's [setup] closure owns the option
    list and the container reference, reads its props, emits on an
    outbound channel and talks to the document (focus, queries).  All of
    that is gathered in one record, [World], threaded through a small
    state-and-exception monad [M]. *)

From Stdlib Require Import ZArith String List Lia.
From Stdlib Require Import Floats.SpecFloat.
From stdpp Require Import base gmap strings list sorting.

Local Open Scope Z_scope.
Set Warnings "-register-all".

(** ** JavaScript values *)

(** Props are typed [unknown] in the source; values are compared with [===]
    only.  Objects are compared by identity, hence an address. *)
Inductive Value : Type :=
  | Undefined
  | Null
  | Boolean (b : bool)
  | Number (x : spec_float)
  | Str (s : string)
  | Object (address : positive).

(** [x === y] (IsStrictlyEqual): same type and same value; [NaN] differs from
    everything, itself included, and [+0 === -0]. *)
Definition strict_equals (x y : Value) : bool :=
  match x, y with
  | Undefined, Undefined => true
  | Null, Null => true
  | Boolean a, Boolean b => Bool.eqb a b
  | Number a, Number b => SFeqb a b
  | Str a, Str b => String.eqb a b
  | Object a, Object b => Pos.eqb a b
  | _, _ => false
  end.

Inductive Exception : Type :=
  | Error (message : string)   (* [new Error(message)] *)
  | TypeError.                 (* raised by the engine; its text is engine specific *)

Inductive Completion (A : Type) : Type :=
  | Normal (a : A)
  | Throw (e : Exception).
Arguments Normal {A} a.
Arguments Throw {A} e.

(** ** Document *)

(** An element reference is the element's identity. *)
Definition Elem := nat.
Bind Scope nat_scope with Elem.

(** An element together with what is rendered below it.  Only the [id] and
    [role] attributes are read or written by this file; text nodes are
    invisible to [querySelectorAll] and to a [SHOW_ELEMENT] walker. *)
Inductive HTMLElement : Type :=
  Element (node : Elem) (attr_id attr_role : option string)
          (children : list HTMLElement).

Definition node (e : HTMLElement) : Elem :=
  match e with Element n _ _ _ => n end.
Definition attr_id (e : HTMLElement) : option string :=
  match e with Element _ i _ _ => i end.
Definition attr_role (e : HTMLElement) : option string :=
  match e with Element _ _ r _ => r end.
Definition children (e : HTMLElement) : list HTMLElement :=
  match e with Element _ _ _ c => c end.

(** [element.id]: the attribute, or the empty string. *)
Definition Element_id (e : HTMLElement) : string :=
  match attr_id e with Some i => i | None => EmptyString end.

(** Descendants in document (pre-)order, the element itself excluded. *)
Fixpoint descendants (e : HTMLElement) : list HTMLElement :=
  match e with
  | Element _ _ _ kids =>
      (fix go (l : list HTMLElement) : list HTMLElement :=
         match l with
         | [] => []
         | k :: l' => k :: descendants k ++ go l'
         end) kids
  end.

Definition option_id_prefix : string := "headlessui-radiogroup-option-".

(** [container.querySelectorAll('[id^="headlessui-radiogroup-option-"]')] *)
Definition querySelectorAll_options (container : HTMLElement) : list HTMLElement :=
  List.filter
    (fun e => match attr_id e with
              | Some i => String.prefix option_id_prefix i
              | None => false
              end)
    (descendants container).

(** [container.contains(target)]: inclusive of the container; [null] is not
    contained. *)
Definition contains (container : HTMLElement) (target : option Elem) : bool :=
  match target with
  | None => false
  | Some t =>
      Nat.eqb (node container) t
      || existsb (fun e => Nat.eqb (node e) t) (descendants container)
  end.

(** ** Group state *)

(** [interface Option], read through the reactive list: [option.element] is
    the element reference's current content and [option.propsRef.value] the
    option's current [value] prop. *)
Record Option : Type := {
  id : string;
  element : option Elem;
  propsRef : Value;
}.

(** The references are modelled in the two states the source's types give
    them, [HTMLElement | null]: [radioGroupRef] (and likewise the [element] of
    an option and the [optionRef] of its component) is [null] or holds an
    element.  A group or option rendered [as] a component leaves a component
    instance in the reference instead; on such a reference [querySelectorAll],
    [contains] and [focus] are not functions and the calls throw.  That state
    is outside this model: every statement below is about references that
    are [null] or hold an element. *)
Record World : Type := {
  (* props of <RadioGroup> *)
  props_disabled : bool;
  props_modelValue : Value;
  (* setup() *)
  radioGroupRef : option HTMLElement;
  options : list Option;
  (* emit('update:modelValue', _), oldest first *)
  emitted : list Value;
  (* document *)
  activeElement : option Elem;
  focusable : Elem -> bool;
}.

Definition set_options (l : list Option) (w : World) : World :=
  {| props_disabled := props_disabled w; props_modelValue := props_modelValue w;
     radioGroupRef := radioGroupRef w; options := l; emitted := emitted w;
     activeElement := activeElement w; focusable := focusable w |}.

Definition set_emitted (l : list Value) (w : World) : World :=
  {| props_disabled := props_disabled w; props_modelValue := props_modelValue w;
     radioGroupRef := radioGroupRef w; options := options w; emitted := l;
     activeElement := activeElement w; focusable := focusable w |}.

Definition set_activeElement (a : option Elem) (w : World) : World :=
  {| props_disabled := props_disabled w; props_modelValue := props_modelValue w;
     radioGroupRef := radioGroupRef w; options := options w; emitted := emitted w;
     activeElement := a; focusable := focusable w |}.

Definition set_radioGroupRef (c : option HTMLElement) (w : World) : World :=
  {| props_disabled := props_disabled w; props_modelValue := props_modelValue w;
     radioGroupRef := c; options := options w; emitted := emitted w;
     activeElement := activeElement w; focusable := focusable w |}.

(** ** State and exceptions *)

Definition M (A : Type) : Type := World -> Completion A * World.

Definition ret {A} (a : A) : M A := fun w => (Normal a, w).
Definition throw {A} (e : Exception) : M A := fun w => (Throw e, w).
Definition bind {A B} (m : M A) (k : A -> M B) : M B :=
  fun w => match m w with
           | (Normal a, w') => k a w'
           | (Throw e, w') => (Throw e, w')
           end.
Definition get : M World := fun w => (Normal w, w).
Definition modify (f : World -> World) : M unit := fun w => (Normal tt, f w).

Notation "'let*' x ':=' m 'in' k" := (bind m (fun x => k))
  (at level 10, x name, m at level 100, k at level 200).
Notation "m ';;' k" := (bind m (fun _ => k))
  (at level 100, k at level 200, right associativity).

(** ** Arrays *)

(** [array.reduce((acc, element, index) => ..., init)] *)
Fixpoint Array_reduce {A B : Type} (callback : B -> A -> nat -> B)
    (l : list A) (index : nat) (acc : B) : B :=
  match l with
  | [] => acc
  | x :: l' => Array_reduce callback l' (S index) (callback acc x index)
  end.

Section ArraySort.
Context {A : Type}.
(** The comparator's result as a number; [None] stands for [NaN]. *)
Variable comparefn : A -> A -> option Z.

(** SortCompare: a [NaN] result counts as [+0]. *)
Definition SortCompare (x y : A) : Z :=
  match comparefn x y with
  | Some v => v
  | None => 0
  end.

(** [x] is placed in front of the first element that must come after it, so
    equal elements keep their order. *)
Fixpoint sort_insert (x : A) (sorted : list A) : list A :=
  match sorted with
  | [] => [x]
  | y :: rest =>
      if 0 <? SortCompare y x then x :: y :: rest
      else y :: sort_insert x rest
  end.

(** [array.sort(comparefn)].  ECMAScript fixes the result only for a
    consistent comparator (the stable sorted arrangement) and leaves it to
    the engine otherwise; this is the stable insertion sort.  For
    [registerOption]'s comparator that means: the result is the engine's when
    every option concerned is ranked, and when none is; when only some are
    ranked the comparator is inconsistent, engines differ from this function
    and from each other, and nothing is stated of that case. *)
Definition Array_sort (l : list A) : list A :=
  foldl (fun sorted x => sort_insert x sorted) [] l.
End ArraySort.

(** [array.findIndex(p)], with [None] for [-1]. *)
Fixpoint findIndex {A : Type} (p : A -> bool) (l : list A) : option nat :=
  match l with
  | [] => None
  | x :: l' => if p x then Some 0%nat else S <$> findIndex p l'
  end.

(** [array.splice(idx, 1)] *)
Definition splice1 {A : Type} (idx : nat) (l : list A) : list A :=
  take idx l ++ drop (S idx) l.

(** ** The group's api (setup of RadioGroup) *)

(** [value = computed(() => props.modelValue)] *)
Definition api_value (w : World) : Value := props_modelValue w.

Definition emit_update_modelValue (v : Value) : M unit :=
  modify (fun w => set_emitted (emitted w ++ [v]) w).

Definition change (nextValue : Value) : M unit :=
  let* w := get in
  if props_disabled w then ret tt
  else if strict_equals (api_value w) nextValue then ret tt
  else emit_update_modelValue nextValue.

(** The [reduce] of [registerOption]: [Object.assign(lookup, {[element.id]: index})] *)
Definition orderMap_of (elements : list HTMLElement) : gmap string nat :=
  Array_reduce (fun lookup element index => <[Element_id element := index]> lookup)
    elements 0%nat ∅.

(** [orderMap[a.id] - orderMap[z.id]]; a missing key reads [undefined] and
    the difference is [NaN]. *)
Definition compare_by_order (orderMap : gmap string nat) (a z : Option) : option Z :=
  match orderMap !! id a, orderMap !! id z with
  | Some i, Some j => Some (Z.of_nat i - Z.of_nat j)
  | _, _ => None
  end.

(** [orderMap[option.id]] as [registerOption] computes it for the container. *)
Definition rank (container : HTMLElement) (o : Option) : option nat :=
  orderMap_of (querySelectorAll_options container) !! id o.

Definition registerOption (action : Option) : M unit :=
  let* w := get in
  match radioGroupRef w with
  | None =>
      (* [radioGroupRef.value?.querySelectorAll(..)] is [undefined] and
         [Array.from(undefined)] throws *)
      throw TypeError
  | Some container =>
      let orderMap := orderMap_of (querySelectorAll_options container) in
      modify (fun w => set_options (options w ++ [action]) w) ;;
      modify (fun w => set_options (Array_sort (compare_by_order orderMap) (options w)) w)
  end.

(** The [onMounted] hooks of several options, run in the given order. *)
Fixpoint registerAll (actions : list Option) : M unit :=
  match actions with
  | [] => ret tt
  | action :: rest => registerOption action ;; registerAll rest
  end.

Definition unregisterOption (id' : string) : M unit :=
  let* w := get in
  match findIndex (fun radio => String.eqb (id radio) id') (options w) with
  | None => ret tt
  | Some idx => modify (fun w => set_options (splice1 idx (options w)) w)
  end.

(** ** Role normalization (the [watchEffect] of RadioGroup) *)

Inductive NodeFilter : Type := FILTER_ACCEPT | FILTER_REJECT | FILTER_SKIP.

Definition getAttribute_role (e : HTMLElement) : option string := attr_role e.
Definition hasAttribute_role (e : HTMLElement) : bool :=
  match attr_role e with Some _ => true | None => false end.
Definition setAttribute_role (r : string) (e : HTMLElement) : HTMLElement :=
  match e with Element n i _ kids => Element n i (Some r) kids end.

Definition acceptNode (e : HTMLElement) : NodeFilter :=
  if bool_decide (getAttribute_role e = Some "radio") then FILTER_REJECT
  else if hasAttribute_role e then FILTER_SKIP
  else FILTER_ACCEPT.

(** *** The tree walker

    A position in the tree under the walker's root is the element at that
    position together with the way back to the root: for each ancestor, its
    own attributes and its other children, those before (nearest first) and
    those after. *)
Record Frame : Type := {
  parent_node : Elem;
  parent_id : option string;
  parent_role : option string;
  before : list HTMLElement;
  after : list HTMLElement;
}.

Definition Position : Type := HTMLElement * list Frame.

Definition parentNode (e : HTMLElement) (f : Frame) : HTMLElement :=
  Element (parent_node f) (parent_id f) (parent_role f)
    (rev_append (before f) (e :: after f)).

(** The whole tree, seen from a position. *)
Fixpoint tree_of (e : HTMLElement) (ancestors : list Frame) : HTMLElement :=
  match ancestors with
  | [] => e
  | f :: ancestors' => tree_of (parentNode e f) ancestors'
  end.

Definition firstChild (p : Position) : option Position :=
  match p with
  | (Element n i r (k :: kids), ancestors) =>
      Some (k, {| parent_node := n; parent_id := i; parent_role := r;
                  before := []; after := kids |} :: ancestors)
  | (Element _ _ _ [], _) => None
  end.

(** Steps 2 to 4 of [nextNode]'s loop: the next sibling of the nearest
    ancestor-or-self that has one; nothing once the root is reached. *)
Fixpoint following (e : HTMLElement) (ancestors : list Frame) : option Position :=
  match ancestors with
  | [] => None
  | f :: ancestors' =>
      match after f with
      | sibling :: rest =>
          Some (sibling,
                {| parent_node := parent_node f; parent_id := parent_id f;
                   parent_role := parent_role f;
                   before := e :: before f; after := rest |} :: ancestors')
      | [] => following (parentNode e f) ancestors'
      end
  end.

(** The loop of [TreeWalker.nextNode()] (DOM Standard), entered with the last
    filter [result] for [node]: descend to the first child unless [node] was
    rejected, else go to what follows; filter the element reached and return
    it if accepted, loop otherwise.  [None] is running out of [fuel]; [Some
    None] is the walker's [null]. *)
Fixpoint nextNode_loop (fuel : nat) (result : NodeFilter) (node : Position)
  : option (option Position) :=
  match fuel with
  | O => None
  | S fuel' =>
      let reached :=
        match result with
        | FILTER_REJECT => following node.1 node.2
        | _ =>
            match firstChild node with
            | Some child => Some child
            | None => following node.1 node.2
            end
        end in
      match reached with
      | None => Some None
      | Some next =>
          match acceptNode next.1 with
          | FILTER_ACCEPT => Some (Some next)
          | result' => nextNode_loop fuel' result' next
          end
      end
  end.

(** Number of elements of a tree. *)
Fixpoint size (e : HTMLElement) : nat :=
  match e with
  | Element _ _ _ kids =>
      S ((fix sum (l : list HTMLElement) : nat :=
            match l with
            | [] => O
            | k :: l' => (size k + sum l')%nat
            end) kids)
  end.

(** [walker.nextNode()] from [walker.currentNode]; each turn of its loop
    reaches an element not met before, so the size of the tree is fuel
    enough. *)
Definition nextNode (currentNode : Position) : option (option Position) :=
  nextNode_loop (size (tree_of currentNode.1 currentNode.2)) FILTER_ACCEPT currentNode.

(** [while (walker.nextNode()) walker.currentNode.setAttribute('role', 'none')];
    the result is the tree once [nextNode] has returned [null]. *)
Fixpoint walker_loop (fuel : nat) (currentNode : Position) : option HTMLElement :=
  match fuel with
  | O => None
  | S fuel' =>
      match nextNode currentNode with
      | None => None
      | Some None => Some (tree_of currentNode.1 currentNode.2)
      | Some (Some next) =>
          walker_loop fuel' (setAttribute_role "none" next.1, next.2)
      end
  end.

(** [document.createTreeWalker(container, NodeFilter.SHOW_ELEMENT, {acceptNode})]
    followed by the loop. *)
Definition normalized (container : HTMLElement) : option HTMLElement :=
  walker_loop (size container) (container, []).

(** Modelled from the spec: [dom] of utils/dom, which is not part of this file.
    The normalizer walks the descendants of the group container, so
    [dom(radioGroupRef)] is the container element behind the reference, or
    [null]; on the references of this model it is the reference's content. *)
Definition dom (ref : option HTMLElement) : option HTMLElement := ref.

Definition normalizeRoles : M unit :=
  let* w := get in
  match dom (radioGroupRef w) with
  | None => ret tt
  | Some container =>
      match normalized container with
      | Some container' => modify (set_radioGroupRef (Some container'))
      | None => ret tt
      end
  end.

(** *** What the walk amounts to *)

(** The effect of the loop on an element the walker comes to: a rejected
    element is passed over together with its subtree, a skipped element is
    passed over but its children are walked, an accepted element is tagged and
    its children are walked. *)
Fixpoint walk (e : HTMLElement) : HTMLElement :=
  match acceptNode e with
  | FILTER_REJECT => e
  | FILTER_SKIP =>
      match e with Element n i r kids => Element n i r (List.map walk kids) end
  | FILTER_ACCEPT =>
      match e with
      | Element n i r kids =>
          setAttribute_role "none" (Element n i r (List.map walk kids))
      end
  end.

(** The walker's root is never filtered; its children are walked. *)
Definition walkFrom (root : HTMLElement) : HTMLElement :=
  match root with Element n i r kids => Element n i r (List.map walk kids) end.

(** The tree the loop ends with, seen from a position whose element is done
    with: what comes after, at every level, is still to be walked. *)
Fixpoint finish (e : HTMLElement) (ancestors : list Frame) : HTMLElement :=
  match ancestors with
  | [] => e
  | f :: ancestors' =>
      finish (Element (parent_node f) (parent_id f) (parent_role f)
                (rev_append (before f) (e :: List.map walk (after f))))
             ancestors'
  end.

(** The same when the loop is entered at that position with the last filter
    [result]: unless rejected, the element's children are still to be walked
    too. *)
Definition outcome (result : NodeFilter) (e : HTMLElement) (ancestors : list Frame)
  : HTMLElement :=
  match result with
  | FILTER_REJECT => finish e ancestors
  | _ => finish (walkFrom e) ancestors
  end.

(** Number of elements the walker has not come to yet. *)
Definition pending (ancestors : list Frame) : nat :=
  sum_list_with (fun f => sum_list_with size (after f)) ancestors.

Definition remaining (result : NodeFilter) (e : HTMLElement) (ancestors : list Frame)
  : nat :=
  match result with
  | FILTER_REJECT => pending ancestors
  | _ => (sum_list_with size (children e) + pending ancestors)%nat
  end.

(** *** Addressing elements below the container *)

(** The element reached from [e] by following child positions. *)
Fixpoint subtree (e : HTMLElement) (path : list nat) : option HTMLElement :=
  match path with
  | [] => Some e
  | i :: path' =>
      match children e !! i with
      | Some k => subtree k path'
      | None => None
      end
  end.

(** An option element: one that carries [role="radio"]. *)
Definition is_option (e : HTMLElement) : bool :=
  bool_decide (attr_role e = Some "radio").

(** Some element from [e] down to the parent of the element at [path] is an
    option element. *)
Fixpoint inside_option (e : HTMLElement) (path : list nat) : bool :=
  match path with
  | [] => false
  | i :: path' =>
      is_option e
      || match children e !! i with
         | Some k => inside_option k path'
         | None => false
         end
  end.

(** The same for a position below the walker's root, whose own role the
    walker never looks at. *)
Definition below_option (root : HTMLElement) (path : list nat) : bool :=
  match path with
  | [] => false
  | i :: path' =>
      match children root !! i with
      | Some k => inside_option k path'
      | None => false
      end
  end.

(** The role an element has once the walker has come by. *)
Definition normalized_role (e : HTMLElement) : option string :=
  match attr_role e with
  | Some r => Some r
  | None => Some "none"
  end.

(** Role normalization as "an explicit role shields the whole subtree": every
    descendant that declares a role is, with everything below it, left as it
    was. *)
Definition explicit_role_shields_subtree (root : HTMLElement) : Prop :=
  forall path d, path <> [] -> subtree root path = Some d ->
                 is_Some (attr_role d) ->
                 exists root', normalized root = Some root' /\
                               subtree root' path = Some d.

(** ** Focus *)

(** [element.focus()]: the platform moves focus only to an element that can
    take it. *)
Definition HTMLElement_focus (e : Elem) : M unit :=
  modify (fun w => if focusable w e then set_activeElement (Some e) w else w).

(** The world after [ref?.focus()]. *)
Definition after_focus (ref : option Elem) (w : World) : World :=
  match ref with
  | Some el => if focusable w el then set_activeElement (Some el) w else w
  | None => w
  end.

(** Modelled from the spec: the flags of [focusIn] (utils/focus-management, not
    part of this file), in the two combinations the group passes,
    [Focus.Previous | Focus.WrapAround] and [Focus.Next | Focus.WrapAround]. *)
Inductive Focus : Type := Previous_WrapAround | Next_WrapAround.

(** Modelled from the spec: the outcome of [focusIn]; the handler only tells
    [FocusResult.Success] from the rest. *)
Inductive FocusResult : Type := Success | Failed.

(** Modelled from the spec: Previous scans backward, Next forward. *)
Definition direction (focus : Focus) : Z :=
  match focus with
  | Previous_WrapAround => -1
  | Next_WrapAround => 1
  end.

(** Modelled from the spec: the scan of [focusIn] starts from the currently
    focused entry; when no entry holds focus (a case the description leaves
    open) it is taken from the head of the list. *)
Definition focused_index (elements : list (option Elem)) (active : option Elem) : nat :=
  match findIndex (fun e => bool_decide (e = active)) elements with
  | Some i => i
  | None => 0%nat
  end.

(** Modelled from the spec: the entry [k] steps from [start] in the scan
    direction, wrapping from the first to the last and from the last to the
    first. *)
Definition candidate (elements : list (option Elem)) (start : nat) (dir : Z) (k : nat)
  : option Elem :=
  match elements !! Z.to_nat ((Z.of_nat start + dir * Z.of_nat k)
                              mod Z.of_nat (length elements)) with
  | Some (Some e) => Some e
  | _ => None
  end.

(** Modelled from the spec: the first candidate of [focusIn]'s scan, from step
    [k] on and over [fuel] steps, that can take focus. *)
Fixpoint scan (ok : Elem -> bool) (elements : list (option Elem)) (start : nat)
    (dir : Z) (k fuel : nat) : option Elem :=
  match fuel with
  | O => None
  | S fuel' =>
      match candidate elements start dir k with
      | Some e => if ok e then Some e else scan ok elements start dir (S k) fuel'
      | None => scan ok elements start dir (S k) fuel'
      end
  end.

(** Modelled from the spec: [focusIn] of utils/focus-management, the generic
    focus-traversal utility, which is not part of this file.  Per the
    description of the keyboard navigator: scan the ordered list from the
    currently focused entry in the given direction, wrapping around at either
    end; move focus to the first candidate that accepts it and report success;
    when no candidate does, change nothing and report failure.  The scan makes
    one full turn, so the focused entry itself is the last candidate. *)
Definition focusIn (elements : list (option Elem)) (focus : Focus) : M FocusResult :=
  let* w := get in
  let start := focused_index elements (activeElement w) in
  match scan (focusable w) elements start (direction focus) 1 (length elements) with
  | Some e => HTMLElement_focus e ;; ret Success
  | None => ret Failed
  end.

(** ** Keyboard (the [useWindowEvent('keydown', ...)] of RadioGroup) *)

(** [event.key] as the handler's [switch] sees it: one of the five members of
    [Keys] it names, or anything else.  (The table [Keys] itself lives in
    keyboard.ts.) *)
Inductive Key : Type :=
  | ArrowLeft | ArrowUp | ArrowRight | ArrowDown | Space | OtherKey.

Record KeyboardEvent : Type := {
  key : Key;
  target : option Elem;
  defaultPrevented : bool;
  propagationStopped : bool;
}.

Definition preventDefault (event : KeyboardEvent) : KeyboardEvent :=
  {| key := key event; target := target event;
     defaultPrevented := true; propagationStopped := propagationStopped event |}.

Definition stopPropagation (event : KeyboardEvent) : KeyboardEvent :=
  {| key := key event; target := target event;
     defaultPrevented := defaultPrevented event; propagationStopped := true |}.

(** [options.value.find(option => option.element === document.activeElement)] *)
Definition find_activeOption (w : World) : option Option :=
  List.find (fun option => bool_decide (element option = activeElement w)) (options w).

(** [let activeOption = ...find(...); if (activeOption) api.change(activeOption.propsRef.value)] *)
Definition change_to_activeOption : M unit :=
  let* w := get in
  match find_activeOption w with
  | Some activeOption => change (propsRef activeOption)
  | None => ret tt
  end.

Definition move_and_change (event : KeyboardEvent) (focus : Focus) : M KeyboardEvent :=
  let event := preventDefault event in
  let event := stopPropagation event in
  let* w := get in
  let* result := focusIn (element <$> options w) focus in
  match result with
  | Success => change_to_activeOption ;; ret event
  | Failed => ret event
  end.

Definition onKeydown (event : KeyboardEvent) : M KeyboardEvent :=
  let* w := get in
  match radioGroupRef w with
  | None => ret event
  | Some container =>
      if negb (contains container (target event)) then ret event
      else
        match key event with
        | ArrowLeft | ArrowUp => move_and_change event Previous_WrapAround
        | ArrowRight | ArrowDown => move_and_change event Next_WrapAround
        | Space =>
            let event := preventDefault event in
            let event := stopPropagation event in
            change_to_activeOption ;; ret event
        | OtherKey => ret event
        end
  end.

(** *** What a navigation key achieves *)

(** The event after [preventDefault()] and [stopPropagation()]. *)
Definition handled (event : KeyboardEvent) : KeyboardEvent :=
  stopPropagation (preventDefault event).

(** [e] is the first entry, going from the focused entry in the direction of
    [focus] and wrapping around, that can take focus. *)
Definition first_eligible (w : World) (focus : Focus) (e : Elem) : Prop :=
  let elements := element <$> options w in
  let start := focused_index elements (activeElement w) in
  exists n : nat,
    (1 <= n <= length elements)%nat /\
    candidate elements start (direction focus) n = Some e /\
    focusable w e = true /\
    forall m e', (1 <= m < n)%nat ->
                 candidate elements start (direction focus) m = Some e' ->
                 focusable w e' = false.

(** Either focus moves to the first eligible entry and [change] is called
    with the value of the option that now holds focus, or no entry can take
    focus and nothing happens. *)
Definition moved (w : World) (focus : Focus) (w' : World) : Prop :=
  (exists e activeOption,
     first_eligible w focus e /\
     find_activeOption (set_activeElement (Some e) w) = Some activeOption /\
     element activeOption = Some e /\
     activeElement w' = Some e /\
     change (propsRef activeOption) (set_activeElement (Some e) w) = (Normal tt, w'))
  \/
  ((forall e, Some e ∈ element <$> options w -> focusable w e = false) /\ w' = w).

(** ** Context lookup *)

(** [inject(RadioGroupContext, null)] yields the api provided by an enclosing
    group, or [null]; its outcome is the argument [injected].
    [Error.captureStackTrace] only trims the stack of the error. *)
Definition useRadioGroupContext {Context : Type} (injected : option Context)
    (component : string) : Completion Context :=
  match injected with
  | None =>
      Throw (Error ("<" +:+ component +:+ " /> is missing a parent <RadioGroup /> component."))
  | Some context => Normal context
  end.

(** ** RadioGroupOption *)

Module RadioGroupOption.

(** [enum OptionState { Empty = 1 << 0, Active = 1 << 1 }] *)
Definition Empty : Z := Z.shiftl 1 0.
Definition Active : Z := Z.shiftl 1 1.

Local Abbreviation Option_id := id (only parsing).

(** What [setup] of one option closes over.  [optionRef] is [null] or holds
    the option's element (see [World] for the state left out). *)
Record Instance : Type := {
  id : string;
  props_value : Value;
  optionRef : option Elem;
  state : Z;
}.

Definition set_state (s : Z) (this : Instance) : Instance :=
  {| id := id this; props_value := props_value this;
     optionRef := optionRef this; state := s |}.

(** [onMounted(() => api.registerOption({ id, element: optionRef, propsRef }))] *)
Definition registered (this : Instance) : Option :=
  Build_Option (id this) (optionRef this) (props_value this).

(** [api.options.value?.[0]?.id === this.id] *)
Definition firstRadio (w : World) (this : Instance) : bool :=
  match options w !! 0%nat with
  | Some first => String.eqb (Option_id first) (id this)
  | None => false
  end.

Definition checked (w : World) (this : Instance) : bool :=
  strict_equals (api_value w) (props_value this).

(** [Boolean(this.state & OptionState.Active)] *)
Definition active (this : Instance) : bool :=
  negb (Z.land (state this) Active =? 0).

Definition aria_checked (w : World) (this : Instance) : string :=
  if checked w this then "true" else "false".

Definition tabIndex (w : World) (this : Instance) : Z :=
  if checked w this then 0
  else if strict_equals (api_value w) Undefined && firstRadio w this then 0
  else -1.

Definition handleClick (this : Instance) : M Instance :=
  let value := props_value this in
  let* w := get in
  if strict_equals (api_value w) value then ret this
  else
    let this := set_state (Z.lor (state this) Active) this in
    change value ;;
    match optionRef this with
    | Some el => HTMLElement_focus el
    | None => ret tt
    end ;;
    ret this.

(** The listeners below are attached to the option's element; the platform
    calls them when focus arrives at or leaves it. *)
Definition handleFocus (this : Instance) : Instance :=
  set_state (Z.lor (state this) Active) this.

Definition handleBlur (this : Instance) : Instance :=
  set_state (Z.land (state this) (Z.lnot Active)) this.

End RadioGroupOption.

(** ** The rendered group *)

(** The option components of a rendered group: all mounted and registered,
    in list order, with ids that are unique ([useId]). *)
Definition Rendered (w : World) (insts : list RadioGroupOption.Instance) : Prop :=
  options w = RadioGroupOption.registered <$> insts /\
  NoDup (RadioGroupOption.id <$> insts).

(** [this] is Tab-reachable and no other option is. *)
Definition sole_tab_stop (w : World) (insts : list RadioGroupOption.Instance)
    (this : RadioGroupOption.Instance) : Prop :=
  this ∈ insts /\ RadioGroupOption.tabIndex w this = 0 /\
  forall other, other ∈ insts -> other <> this ->
                RadioGroupOption.tabIndex w other = -1.

(** The roving-tabindex invariant in its unconditional form: some option is
    the sole Tab stop; it is a checked one when there is one, and the first
    option when nothing is selected. *)
Definition exactly_one_tab_stop (w : World) (insts : list RadioGroupOption.Instance)
  : Prop :=
  exists this,
    sole_tab_stop w insts this /\
    ((exists o, o ∈ insts /\ RadioGroupOption.checked w o = true) ->
       RadioGroupOption.checked w this = true) /\
    ((forall o, o ∈ insts -> RadioGroupOption.checked w o = false) ->
       head insts = Some this).

(** ** Lifecycle and listeners of an option *)

(** [onMounted(() => api.registerOption({ id, element: optionRef, propsRef }))] *)
Definition onMounted (this : RadioGroupOption.Instance) : M unit :=
  registerOption (RadioGroupOption.registered this).

(** [onUnmounted(() => api.unregisterOption(id))] *)
Definition onUnmounted (this : RadioGroupOption.Instance) : M unit :=
  unregisterOption (RadioGroupOption.id this).

(** The two listeners the render function attaches besides [onClick]:
    [onFocus: this.handleFocus] and [onBlur: this.handleBlur]. *)
Inductive FocusEvent : Type := onFocus | onBlur.

Definition listener (ev : FocusEvent) (this : RadioGroupOption.Instance)
  : RadioGroupOption.Instance :=
  match ev with
  | onFocus => RadioGroupOption.handleFocus this
  | onBlur => RadioGroupOption.handleBlur this
  end.

(** The listeners called for a succession of focus events, oldest first. *)
Definition dispatch (events : list FocusEvent) (this : RadioGroupOption.Instance)
  : RadioGroupOption.Instance :=
  foldl (fun this ev => listener ev this) this events.

(** ** The registered list *)

(** A list without its first option of the given id. *)
Fixpoint without_first (id' : string) (l : list Option) : list Option :=
  match l with
  | [] => []
  | o :: l' => if String.eqb (id o) id' then l' else o :: without_first id' l'
  end.

(** The state the registration protocol maintains for a container: ids are
    unique, every registered option is found by the scan, and the list is in
    scan order. *)
Definition Registered (container : HTMLElement) (l : list Option) : Prop :=
  NoDup (id <$> l) /\
  (forall o, o ∈ l -> is_Some (rank container o)) /\
  StronglySorted
    (fun a z => Z.of_nat (default 0%nat (rank container a))
                <= Z.of_nat (default 0%nat (rank container z))) l.

(** ** Confinement of the keydown handler *)

(** What every run of the handler respects, stated for the world it ends in. *)
Definition keydown_confined (w : World) (event event' : KeyboardEvent) (w' : World)
  : Prop :=
  options w' = options w /\ props_disabled w' = props_disabled w /\
  props_modelValue w' = props_modelValue w /\
  radioGroupRef w' = radioGroupRef w /\ focusable w' = focusable w /\
  key event' = key event /\ target event' = target event /\
  (emitted w' = emitted w \/
   exists o, o ∈ options w /\ element o = activeElement w' /\
             emitted w' = emitted w ++ [propsRef o] /\
             props_disabled w = false /\
             strict_equals (api_value w) (propsRef o) = false) /\
  (activeElement w' = activeElement w \/
   exists e, activeElement w' = Some e /\ Some e ∈ element <$> options w /\
             focusable w e = true).

(** ** Document order of the registered options *)

(** Where the element of an option sits in the document: the index, in the
    document-order listing of what is rendered below the container, of the
    node its [element] reference holds. *)
Definition document_position (container : HTMLElement) (o : Option) : option nat :=
  match element o with
  | None => None
  | Some e => findIndex (fun d => Nat.eqb (node d) e) (descendants container)
  end.

(** The list runs through the elements of its options in document order. *)
Definition in_document_order (container : HTMLElement) (l : list Option) : Prop :=
  forall i j a z, (i < j)%nat -> l !! i = Some a -> l !! j = Some z ->
    exists p q, document_position container a = Some p /\
                document_position container z = Some q /\ (p <= q)%nat.

(** The scan finds the id of the option on the option's own element only. *)
Definition rendered_with_own_id (container : HTMLElement) (o : Option) : Prop :=
  forall e, e ∈ querySelectorAll_options container -> Element_id e = id o ->
            element o = Some (node e).

(** The ordering guarantee in the words of the specification, for one
    sequence of calls: the calls return, the list then holds the options
    registered so far, and it runs through their elements in document
    order. *)
Definition registered_in_document_order (w : World) (called : list Option) : Prop :=
  exists w',
    registerAll called w = (Normal tt, w') /\
    options w' ≡ₚ options w ++ called /\
    forall container, radioGroupRef w = Some container ->
                      in_document_order container (options w').

(** ** Sample data *)

Definition world0 : World :=
  {| props_disabled := false; props_modelValue := Str "a";
     radioGroupRef := None; options := []; emitted := [];
     activeElement := None; focusable := fun _ => true |}.

(** A group with three options; the second sits inside a wrapper, and a
    sibling wrapper declares a role of its own. *)
Definition optA : Option :=
  {| id := "headlessui-radiogroup-option-2"; element := Some 1%nat; propsRef := Str "a" |}.
Definition optB : Option :=
  {| id := "headlessui-radiogroup-option-3"; element := Some 2%nat; propsRef := Str "b" |}.
Definition optC : Option :=
  {| id := "headlessui-radiogroup-option-4"; element := Some 3%nat; propsRef := Str "c" |}.

Definition container1 : HTMLElement :=
  Element 100 (Some "headlessui-radiogroup-1") (Some "radiogroup")
    [ Element 1 (Some "headlessui-radiogroup-option-2") (Some "radio")
        [ Element 11 None None [] ];
      Element 5 None None
        [ Element 2 (Some "headlessui-radiogroup-option-3") (Some "radio") [] ];
      Element 6 None (Some "group")
        [ Element 7 None None [] ];
      Element 3 (Some "headlessui-radiogroup-option-4") (Some "radio") [] ].

Definition world1 : World :=
  {| props_disabled := false; props_modelValue := Undefined;
     radioGroupRef := Some container1; options := [optA; optB; optC];
     emitted := []; activeElement := Some 1%nat; focusable := fun _ => true |}.

Definition set_disabled (b : bool) (w : World) : World :=
  {| props_disabled := b; props_modelValue := props_modelValue w;
     radioGroupRef := radioGroupRef w; options := options w; emitted := emitted w;
     activeElement := activeElement w; focusable := focusable w |}.

Definition set_modelValue (v : Value) (w : World) : World :=
  {| props_disabled := props_disabled w; props_modelValue := v;
     radioGroupRef := radioGroupRef w; options := options w; emitted := emitted w;
     activeElement := activeElement w; focusable := focusable w |}.

Definition instB : RadioGroupOption.Instance :=
  {| RadioGroupOption.id := "headlessui-radiogroup-option-3";
     RadioGroupOption.props_value := Str "b";
     RadioGroupOption.optionRef := Some 2%nat;
     RadioGroupOption.state := RadioGroupOption.Empty |}.

Definition instA : RadioGroupOption.Instance :=
  {| RadioGroupOption.id := "headlessui-radiogroup-option-2";
     RadioGroupOption.props_value := Str "a";
     RadioGroupOption.optionRef := Some 1%nat;
     RadioGroupOption.state := RadioGroupOption.Empty |}.

Definition instC : RadioGroupOption.Instance :=
  {| RadioGroupOption.id := "headlessui-radiogroup-option-4";
     RadioGroupOption.props_value := Str "c";
     RadioGroupOption.optionRef := Some 3%nat;
     RadioGroupOption.state := RadioGroupOption.Empty |}.

Definition keydown_event (k : Key) (t : option Elem) : KeyboardEvent :=
  {| key := k; target := t; defaultPrevented := false; propagationStopped := false |}.

(** The bound value matches no option. *)
Definition world_stale : World := set_modelValue (Str "z") world1.

(** The elements of the three options under ids that the scan does not
    match, and a group mounted on them with nothing registered yet. *)
Definition container_unmatched : HTMLElement :=
  Element 100 (Some "headlessui-radiogroup-1") (Some "radiogroup")
    [ Element 1 (Some "first") (Some "radio") [];
      Element 2 (Some "second") (Some "radio") [];
      Element 3 (Some "third") (Some "radio") [] ].

Definition world_unmatched : World :=
  {| props_disabled := false; props_modelValue := Undefined;
     radioGroupRef := Some container_unmatched; options := [];
     emitted := []; activeElement := None; focusable := fun _ => true |}.

(** * Properties *)

(** ** Strict equality *)

Lemma SFeqb_refl (x : spec_float) : x <> S754_nan -> SFeqb x x = true.
Proof.
  unfold SFeqb, SFcompare. destruct x as [s|s| |s m e]; try congruence.
  - now destruct s.
  - intros _. rewrite Z.compare_refl.
    assert (H : PosDef.Pos.compare_cont Eq m m = Eq) by apply Pos.compare_cont_refl.
    rewrite H. now destruct s.
Qed.

Lemma strict_equals_refl (v : Value) :
  v <> Number S754_nan -> strict_equals v v = true.
Proof.
  destruct v as [| |b|x|s|a]; simpl; intros H; try reflexivity.
  - now destruct b.
  - apply SFeqb_refl. congruence.
  - apply String.eqb_refl.
  - apply Pos.eqb_refl.
Qed.

Lemma strict_equals_nan (v : Value) : strict_equals v (Number S754_nan) = false.
Proof. destruct v as [| |b|x|s|a]; try reflexivity. now destruct x. Qed.

(** ** The monad *)

Lemma set_options_same (w : World) : set_options (options w) w = w.
Proof. now destruct w. Qed.


(** ** [change] *)

Lemma change_eq (v : Value) (w : World) :
  change v w =
    (Normal tt,
     if props_disabled w then w
     else if strict_equals (api_value w) v then w
     else set_emitted (emitted w ++ [v]) w).
Proof.
  unfold change, bind, get. simpl.
  destruct (props_disabled w); [reflexivity|].
  now destruct (strict_equals (api_value w) v).
Qed.

Lemma change_frame (v : Value) (w : World) :
  let w' := (change v w).2 in
  props_modelValue w' = props_modelValue w /\ props_disabled w' = props_disabled w /\
  options w' = options w /\ radioGroupRef w' = radioGroupRef w /\
  activeElement w' = activeElement w /\ focusable w' = focusable w.
Proof.
  rewrite change_eq. cbn.
  destruct (props_disabled w) eqn:Hd; [now rewrite Hd|].
  destruct (strict_equals (api_value w) v); cbn; now rewrite ?Hd.
Qed.



(** ** [useRadioGroupContext] *)

(** C8. Without an enclosing group (the injected context is [null]) the lookup
    throws an [Error] whose message contains the name of the calling
    component; with an enclosing group it returns the injected context and
    throws nothing. *)
Theorem useRadioGroupContext_throws_iff_missing
    (Context : Type) (component : string) :
  useRadioGroupContext (@None Context) component =
    Throw (Error ("<" +:+ component +:+
                  " /> is missing a parent <RadioGroup /> component.")) /\
  (exists message before after,
     useRadioGroupContext (@None Context) component = Throw (Error message) /\
     message = before +:+ component +:+ after) /\
  (forall context : Context,
     useRadioGroupContext (Some context) component = Normal context).
Proof.
  split; [reflexivity|]. split; [|reflexivity].
  exists ("<" +:+ component +:+ " /> is missing a parent <RadioGroup /> component.").
  exists "<", " /> is missing a parent <RadioGroup /> component.".
  split; reflexivity.
Qed.

(** ** [registerOption] without a container *)

Lemma registerOption_eq (action : Option) (w : World) :
  registerOption action w =
    match radioGroupRef w with
    | None => (Throw TypeError, w)
    | Some container =>
        (Normal tt,
         set_options
           (Array_sort
              (compare_by_order (orderMap_of (querySelectorAll_options container)))
              (options w ++ [action])) w)
    end.
Proof.
  unfold registerOption, bind, get, throw, modify.
  destruct (radioGroupRef w); reflexivity.
Qed.

(** C10. While the container reference is [null] the rank-scan throws a
    [TypeError]; this happens before the push, so the option is not appended
    and the world (the option list included) is left as it was. *)
Theorem registerOption_unmounted_throws (action : Option) (w : World) :
  radioGroupRef w = None ->
  registerOption action w = (Throw TypeError, w) /\
  options (registerOption action w).2 = options w.
Proof.
  intros H. rewrite registerOption_eq, H. now split.
Qed.

Lemma registerOption_unmounted_throws_witness :
  radioGroupRef world0 = None /\
  registerOption (Build_Option "headlessui-radiogroup-option-1" (Some 1%nat) (Str "a")) world0
    = (Throw TypeError, world0).
Proof.
  split; [reflexivity|].
  apply (registerOption_unmounted_throws
           (Build_Option "headlessui-radiogroup-option-1" (Some 1%nat) (Str "a")) world0).
  reflexivity.
Defined.

(** ** [unregisterOption] *)

Lemma findIndex_None {A} (p : A -> bool) (l : list A) :
  findIndex p l = None <-> forall x, x ∈ l -> p x = false.
Proof.
  induction l as [|y l IH]; simpl.
  - split; [intros _ x Hx; inversion Hx | reflexivity].
  - destruct (p y) eqn:Hy.
    + split; [discriminate|]. intros H. specialize (H y (list_elem_of_here _ _)). congruence.
    + destruct (findIndex p l) as [i|]; simpl.
      * split; [discriminate|]. intros H.
        assert (Hi : Some i = None) by (apply IH; intros x Hx; apply H; now right).
        discriminate.
      * split; [|reflexivity]. intros _ x Hx.
        apply elem_of_cons in Hx as [->|Hx]; [assumption|]. now apply IH.
Qed.

Lemma findIndex_Some {A} (p : A -> bool) (l : list A) (i : nat) :
  findIndex p l = Some i ->
  exists pre x post, l = pre ++ x :: post /\ length pre = i /\ p x = true /\
                     forall y, y ∈ pre -> p y = false.
Proof.
  revert i. induction l as [|y l IH]; simpl; intros i H; [discriminate|].
  destruct (p y) eqn:Hy.
  - injection H as <-. exists [], y, l. repeat split; try assumption.
    intros z Hz. inversion Hz.
  - destruct (findIndex p l) as [j|]; simpl in H; [|discriminate].
    injection H as <-. destruct (IH j eq_refl) as (pre & x & post & -> & Hl & Hx & Hpre).
    exists (y :: pre), x, post. repeat split; simpl; try congruence.
    intros z Hz. apply elem_of_cons in Hz as [->|Hz]; auto.
Qed.

Lemma splice1_app {A} (pre post : list A) (x : A) :
  splice1 (length pre) (pre ++ x :: post) = pre ++ post.
Proof.
  unfold splice1. rewrite take_app_length.
  replace (S (length pre)) with (length (pre ++ [x])) by (rewrite length_app; simpl; lia).
  rewrite (cons_middle x pre post), app_assoc. now rewrite drop_app_length.
Qed.

Lemma unregisterOption_eq (id' : string) (w : World) :
  unregisterOption id' w =
    (Normal tt,
     match findIndex (fun radio => String.eqb (id radio) id') (options w) with
     | None => w
     | Some idx => set_options (splice1 idx (options w)) w
     end).
Proof.
  unfold unregisterOption, bind, get, ret, modify.
  now destruct (findIndex _ (options w)).
Qed.


Lemma findIndex_by_id (id' : string) (l : list Option) :
  match findIndex (fun radio => String.eqb (id radio) id') l with
  | None => forall o, o ∈ l -> id o <> id'
  | Some idx =>
      exists pre o post, l = pre ++ o :: post /\ length pre = idx /\ id o = id' /\
                         forall y, y ∈ pre -> id y <> id'
  end.
Proof.
  destruct (findIndex _ l) as [idx|] eqn:H.
  - apply findIndex_Some in H as (pre & o & post & -> & Hlen & Ho & Hpre).
    exists pre, o, post. repeat split; try assumption.
    + now apply String.eqb_eq.
    + intros y Hy. apply String.eqb_neq. now apply Hpre.
  - intros o Ho. apply String.eqb_neq.
    now apply (proj1 (findIndex_None _ l) H).
Qed.

Lemma unregisterOption_absent (id' : string) (w : World) :
  (forall o, o ∈ options w -> id o <> id') ->
  unregisterOption id' w = (Normal tt, w).
Proof.
  intros Hnone. rewrite unregisterOption_eq.
  pose proof (findIndex_by_id id' (options w)) as Hfind.
  destruct (findIndex _ (options w)) as [idx|]; [|reflexivity].
  exfalso. destruct Hfind as (pre & o & post & Hw & _ & Ho & _).
  apply (Hnone o); [|assumption]. rewrite Hw, elem_of_app; right; left.
Qed.

(** C7. [unregisterOption(id)] never raises and touches nothing but the option
    list.  When no registered option has the id, the world is unchanged.
    When one has, the first such option is removed and the others keep their
    order; with unique ids no option with that id is left, so a second call
    for the same id changes nothing. *)
Theorem unregisterOption_removes_or_ignores (id' : string) (w : World) :
  exists w',
    unregisterOption id' w = (Normal tt, w') /\
    w' = set_options (options w') w /\
    ((forall o, o ∈ options w -> id o <> id') -> w' = w) /\
    ((exists o, o ∈ options w /\ id o = id') ->
       exists pre o post,
         options w = pre ++ o :: post /\ id o = id' /\
         (forall y, y ∈ pre -> id y <> id') /\
         options w' = pre ++ post) /\
    (NoDup (id <$> options w) ->
       (forall o, o ∈ options w' <-> o ∈ options w /\ id o <> id') /\
       unregisterOption id' w' = (Normal tt, w')).
Proof.
  rewrite unregisterOption_eq.
  pose proof (findIndex_by_id id' (options w)) as Hfind.
  destruct (findIndex _ (options w)) as [idx|].
  - destruct Hfind as (pre & o & post & Hw & Hlen & Ho & Hpre).
    eexists; split; [reflexivity|].
    rewrite Hw, <- Hlen, splice1_app. cbn [options set_options].
    assert (Hgone : NoDup (id <$> pre ++ o :: post) ->
                    forall x, x ∈ pre ++ post -> id x <> id').
    { intros Hnodup x Hin.
      rewrite fmap_app, fmap_cons in Hnodup.
      apply NoDup_app in Hnodup as (_ & _ & Hnd).
      apply NoDup_cons in Hnd as [Hnotin _].
      apply elem_of_app in Hin as [Hin|Hin]; [now apply Hpre|].
      intros Heq. apply Hnotin. rewrite Ho, <- Heq. now apply list_elem_of_fmap_2. }
    split; [reflexivity|]. split; [|split].
    + intros Hnone. exfalso. apply (Hnone o); [|assumption].
      apply elem_of_app. right. left.
    + intros _. exists pre, o, post. auto.
    + intros Hnodup. split.
      * intros x. split.
        -- intros Hin. split; [|now apply Hgone].
           apply elem_of_app in Hin. rewrite elem_of_app.
           destruct Hin; [left; assumption | right; right; assumption].
        -- intros [Hin Hne]. rewrite elem_of_app in Hin. rewrite elem_of_app.
           destruct Hin as [Hin|Hin]; [now left|].
           apply elem_of_cons in Hin as [->|Hin]; [contradiction | now right].
      * apply unregisterOption_absent. cbn [options set_options].
        now apply Hgone.
  - eexists; split; [reflexivity|].
    split; [now rewrite set_options_same|]. split; [reflexivity|]. split.
    + intros (o & Hin & Ho). exfalso. now apply (Hfind o).
    + intros _. split.
      * intros x. split; [|tauto]. intros Hin. split; [assumption | now apply Hfind].
      * now apply unregisterOption_absent.
Qed.

(** ** [handleClick] *)

Lemma lor_Active_is_active (s : Z) :
  Z.land (Z.lor s RadioGroupOption.Active) RadioGroupOption.Active
  = RadioGroupOption.Active.
Proof.
  apply Z.bits_inj'. intros n _.
  rewrite Z.land_spec, Z.lor_spec.
  destruct (Z.testbit RadioGroupOption.Active n).
  - now rewrite Bool.orb_true_r.
  - now rewrite Bool.andb_false_r.
Qed.

Lemma active_after_lor (this : RadioGroupOption.Instance) :
  RadioGroupOption.active
    (RadioGroupOption.set_state
       (Z.lor (RadioGroupOption.state this) RadioGroupOption.Active) this) = true.
Proof.
  unfold RadioGroupOption.active. cbn [RadioGroupOption.state RadioGroupOption.set_state].
  now rewrite lor_Active_is_active.
Qed.

Lemma handleClick_eq (this : RadioGroupOption.Instance) (w : World) :
  RadioGroupOption.handleClick this w =
    if strict_equals (api_value w) (RadioGroupOption.props_value this)
    then (Normal this, w)
    else (Normal (RadioGroupOption.set_state
                    (Z.lor (RadioGroupOption.state this) RadioGroupOption.Active) this),
          after_focus (RadioGroupOption.optionRef this)
            (change (RadioGroupOption.props_value this) w).2).
Proof.
  unfold RadioGroupOption.handleClick, bind at 1. cbn [get].
  destruct (strict_equals _ _); [reflexivity|].
  unfold bind. rewrite change_eq.
  cbn [RadioGroupOption.optionRef RadioGroupOption.set_state].
  now destruct (RadioGroupOption.optionRef this).
Qed.

Lemma after_focus_activeElement (el : Elem) (w : World) :
  focusable w el = true -> activeElement (after_focus (Some el) w) = Some el.
Proof. intros H. cbn. now rewrite H. Qed.

Lemma after_focus_frame (ref : option Elem) (w : World) :
  after_focus ref w = set_activeElement (activeElement (after_focus ref w)) w.
Proof.
  destruct ref as [el|]; cbn; [destruct (focusable w el)|]; now destruct w.
Qed.

(** C5. [handleClick] does nothing when the option's value is strictly equal
    to the bound value.  Otherwise it sets the Active bit of the option's
    local state, calls [change] with the option's value, and then calls
    [focus()] on the option's element, which moves input focus there (when
    the element is mounted and can take focus). *)
Theorem handleClick_activates_changes_focuses
    (this : RadioGroupOption.Instance) (w : World) :
  (strict_equals (api_value w) (RadioGroupOption.props_value this) = true ->
     RadioGroupOption.handleClick this w = (Normal this, w)) /\
  (strict_equals (api_value w) (RadioGroupOption.props_value this) = false ->
     exists this' w1 w',
       RadioGroupOption.handleClick this w = (Normal this', w') /\
       this' = RadioGroupOption.set_state
                 (Z.lor (RadioGroupOption.state this) RadioGroupOption.Active) this /\
       RadioGroupOption.active this' = true /\
       change (RadioGroupOption.props_value this) w = (Normal tt, w1) /\
       w' = after_focus (RadioGroupOption.optionRef this) w1 /\
       emitted w' = emitted w1 /\
       (forall el, RadioGroupOption.optionRef this = Some el ->
                   focusable w el = true -> activeElement w' = Some el)).
Proof.
  rewrite handleClick_eq. split; intros ->; [reflexivity|].
  destruct (change (RadioGroupOption.props_value this) w) as [c w1] eqn:Hc.
  pose proof (change_frame (RadioGroupOption.props_value this) w) as Hframe.
  rewrite Hc in Hframe. cbn [snd] in *.
  destruct Hframe as (_ & _ & _ & _ & _ & Hfoc).
  rewrite change_eq in Hc. injection Hc as <- Hw1.
  do 3 eexists. split; [reflexivity|].
  split; [reflexivity|]. split; [apply active_after_lor|].
  split; [reflexivity|]. split; [reflexivity|]. split.
  - rewrite after_focus_frame. reflexivity.
  - intros el -> Hel. apply after_focus_activeElement. now rewrite Hfoc.
Qed.

Lemma handleClick_activates_changes_focuses_witness :
  exists this' w',
    RadioGroupOption.handleClick instB world1 = (Normal this', w') /\
    RadioGroupOption.active this' = true /\
    emitted w' = [Str "b"] /\ activeElement w' = Some 2%nat.
Proof.
  destruct (handleClick_activates_changes_focuses instB world1) as [_ H].
  destruct (H eq_refl) as (this' & w1 & w' & Hrun & _ & Hact & Hch & _ & Hem & Hfocus).
  exists this', w'. split; [assumption|]. split; [assumption|]. split.
  - rewrite Hem. rewrite change_eq in Hch. now injection Hch as <-.
  - now apply Hfocus.
Defined.

(** C9. In a disabled group, a click on an option whose value differs from
    the bound value still sets the option's Active bit and still calls
    [focus()] on its element (moving input focus there when the element is
    mounted and can take focus), although the [change] it issues is stopped by
    the disabled guard: nothing is emitted. *)
Theorem handleClick_disabled_still_activates_and_focuses
    (this : RadioGroupOption.Instance) (w : World) :
  props_disabled w = true ->
  strict_equals (api_value w) (RadioGroupOption.props_value this) = false ->
  exists this' w',
    RadioGroupOption.handleClick this w = (Normal this', w') /\
    RadioGroupOption.active this' = true /\
    emitted w' = emitted w /\
    change (RadioGroupOption.props_value this) w = (Normal tt, w) /\
    w' = after_focus (RadioGroupOption.optionRef this) w /\
    (forall el, RadioGroupOption.optionRef this = Some el ->
                focusable w el = true -> activeElement w' = Some el).
Proof.
  intros Hd Hne. rewrite handleClick_eq, Hne, change_eq, Hd. cbn [snd].
  do 2 eexists. split; [reflexivity|]. split; [apply active_after_lor|].
  split; [|split; [reflexivity|split; [reflexivity|]]].
  - rewrite after_focus_frame. reflexivity.
  - intros el -> Hel. now apply after_focus_activeElement.
Qed.

Lemma handleClick_disabled_still_activates_and_focuses_witness :
  exists this' w',
    RadioGroupOption.handleClick instB (set_disabled true world1) = (Normal this', w') /\
    RadioGroupOption.active this' = true /\
    emitted w' = [] /\ activeElement w' = Some 2%nat.
Proof.
  destruct (handleClick_disabled_still_activates_and_focuses
              instB (set_disabled true world1) eq_refl eq_refl)
    as (this' & w' & Hrun & Hact & Hem & _ & _ & Hfocus).
  exists this', w'. split; [assumption|]. split; [assumption|]. split.
  - assumption.
  - now apply Hfocus.
Defined.

Lemma unregisterOption_removes_or_ignores_witness :
  exists w', unregisterOption "headlessui-radiogroup-option-3" world1 = (Normal tt, w') /\
             forall o, o ∈ options w' <->
                       o ∈ options world1 /\ id o <> "headlessui-radiogroup-option-3".
Proof.
  destruct (unregisterOption_removes_or_ignores "headlessui-radiogroup-option-3" world1)
    as (w' & Hrun & _ & _ & _ & H).
  exists w'. split; [assumption|]. apply H.
  apply (bool_decide_unpack _). vm_compute. exact I.
Defined.

(** ** Roving tabindex *)

Lemma strict_equals_Undefined (v : Value) :
  strict_equals v Undefined = true <-> v = Undefined.
Proof. destruct v; cbn; split; congruence. Qed.

Lemma NoDup_fmap_eq {A B} (f : A -> B) (l : list A) (x y : A) :
  NoDup (f <$> l) -> x ∈ l -> y ∈ l -> f x = f y -> x = y.
Proof.
  induction l as [|z l IH]; intros Hnd Hx Hy Hxy; [inversion Hx|].
  rewrite fmap_cons in Hnd. apply NoDup_cons in Hnd as [Hz Hnd].
  apply elem_of_cons in Hx as [->|Hx]; apply elem_of_cons in Hy as [->|Hy].
  - reflexivity.
  - exfalso. apply Hz. rewrite Hxy. now apply list_elem_of_fmap_2.
  - exfalso. apply Hz. rewrite <- Hxy. now apply list_elem_of_fmap_2.
  - now apply IH.
Qed.

Lemma firstRadio_head (w : World) (insts : list RadioGroupOption.Instance)
    (this : RadioGroupOption.Instance) :
  Rendered w insts -> this ∈ insts ->
  RadioGroupOption.firstRadio w this = true <-> head insts = Some this.
Proof.
  intros [Hopts Hnd] Hin. unfold RadioGroupOption.firstRadio. rewrite Hopts.
  destruct insts as [|first rest]; [inversion Hin|]. cbn.
  rewrite String.eqb_eq. split.
  - intros Hid. f_equal. apply (NoDup_fmap_eq RadioGroupOption.id (first :: rest));
      [assumption | left | assumption | assumption].
  - now intros [= ->].
Qed.

Lemma tabIndex_cases (w : World) (this : RadioGroupOption.Instance) :
  (RadioGroupOption.tabIndex w this = 0 \/ RadioGroupOption.tabIndex w this = -1) /\
  (RadioGroupOption.tabIndex w this = 0 <->
     RadioGroupOption.checked w this = true \/
     (api_value w = Undefined /\ RadioGroupOption.firstRadio w this = true)).
Proof.
  unfold RadioGroupOption.tabIndex.
  destruct (RadioGroupOption.checked w this); [intuition|].
  destruct (strict_equals (api_value w) Undefined) eqn:Hu.
  - apply strict_equals_Undefined in Hu.
    destruct (RadioGroupOption.firstRadio w this); cbn; intuition (try discriminate).
  - assert (api_value w <> Undefined)
      by (intros Heq; apply strict_equals_Undefined in Heq; congruence).
    cbn. intuition (try discriminate).
Qed.

(** C4 as stated fails: when the bound value is defined but equal to no
    option's value, every option gets tabIndex -1 and the group has no Tab
    stop at all. *)
Lemma exactly_one_tab_stop_fails_on_stale_value :
  Rendered world_stale [instA; instB; instC] /\
  ~ exactly_one_tab_stop world_stale [instA; instB; instC].
Proof.
  split.
  - split; [reflexivity|]. apply (bool_decide_unpack _). vm_compute. exact I.
  - intros (this & (Hin & H0 & _) & _).
    repeat (apply elem_of_cons in Hin as [->|Hin]; [discriminate H0|]).
    inversion Hin.
Qed.

(** C4, amended.  An option's tabIndex is 0 when it is checked, or when the
    bound value is [undefined] and it is the first option in order, and -1
    otherwise.  Hence exactly one option is Tab-reachable, all others being
    excluded, in a state where exactly one option is checked and the bound
    value is not [undefined] (the checked option), and in a state where the
    bound value is [undefined], no option is checked and the list is not
    empty (the first option). *)
Theorem tabIndex_roving (w : World) (insts : list RadioGroupOption.Instance) :
  Rendered w insts ->
  (forall this, this ∈ insts ->
     (RadioGroupOption.tabIndex w this = 0 \/ RadioGroupOption.tabIndex w this = -1) /\
     (RadioGroupOption.tabIndex w this = 0 <->
        RadioGroupOption.checked w this = true \/
        (api_value w = Undefined /\ head insts = Some this))) /\
  (forall this, this ∈ insts ->
     RadioGroupOption.checked w this = true ->
     (forall other, other ∈ insts -> other <> this ->
                    RadioGroupOption.checked w other = false) ->
     api_value w <> Undefined ->
     sole_tab_stop w insts this) /\
  (forall first rest, insts = first :: rest ->
     api_value w = Undefined ->
     (forall o, o ∈ insts -> RadioGroupOption.checked w o = false) ->
     sole_tab_stop w insts first).
Proof.
  intros Hr.
  assert (Hiff : forall this, this ∈ insts ->
            (RadioGroupOption.tabIndex w this = 0 \/ RadioGroupOption.tabIndex w this = -1) /\
            (RadioGroupOption.tabIndex w this = 0 <->
               RadioGroupOption.checked w this = true \/
               (api_value w = Undefined /\ head insts = Some this))).
  { intros this Hin. destruct (tabIndex_cases w this) as [Hcases Hzero].
    split; [assumption|]. rewrite Hzero. now rewrite (firstRadio_head w insts this). }
  split; [assumption|]. split.
  - intros this Hin Hchk Hothers Hdef. split; [assumption|]. split.
    + apply (Hiff this Hin). now left.
    + intros other Ho Hne. destruct (Hiff other Ho) as [[H0|Hm] Hzero]; [|assumption].
      apply Hzero in H0 as [Hc|[Hu _]]; [|contradiction].
      rewrite (Hothers other Ho Hne) in Hc. discriminate.
  - intros first rest -> Hu Hnone.
    assert (Hfirst : first ∈ first :: rest) by left.
    split; [assumption|]. split.
    + apply (Hiff first Hfirst). right. now split.
    + intros other Ho Hne. destruct (Hiff other Ho) as [[H0|Hm] Hzero]; [|assumption].
      apply Hzero in H0 as [Hc|[_ Hh]].
      * rewrite (Hnone other Ho) in Hc. discriminate.
      * cbn in Hh. congruence.
Qed.

Lemma tabIndex_roving_witness :
  Rendered world1 [instA; instB; instC] /\
  sole_tab_stop world1 [instA; instB; instC] instA /\
  Rendered (set_modelValue (Str "b") world1) [instA; instB; instC] /\
  sole_tab_stop (set_modelValue (Str "b") world1) [instA; instB; instC] instB.
Proof.
  assert (Hnd : NoDup (RadioGroupOption.id <$> [instA; instB; instC]))
    by (apply (bool_decide_unpack _); vm_compute; exact I).
  assert (Hr1 : Rendered world1 [instA; instB; instC]) by (split; [reflexivity|exact Hnd]).
  assert (Hr2 : Rendered (set_modelValue (Str "b") world1) [instA; instB; instC])
    by (split; [reflexivity|exact Hnd]).
  split; [exact Hr1|]. split; [|split; [exact Hr2|]].
  - destruct (tabIndex_roving world1 [instA; instB; instC] Hr1) as (_ & _ & H).
    apply (H instA [instB; instC]); [reflexivity | reflexivity |].
    intros o Ho. repeat (apply elem_of_cons in Ho as [->|Ho]; [reflexivity|]).
    inversion Ho.
  - destruct (tabIndex_roving (set_modelValue (Str "b") world1) [instA; instB; instC] Hr2)
      as (_ & H & _).
    apply (H instB); [right; left | reflexivity | | discriminate].
    intros o Ho Hne.
    repeat (apply elem_of_cons in Ho as [->|Ho]; [reflexivity || contradiction|]).
    inversion Ho.
Defined.

(** ** Role normalization *)

Lemma lookup_map {A B} (f : A -> B) (l : list A) (i : nat) :
  List.map f l !! i = f <$> l !! i.
Proof. revert i. induction l as [|x l IH]; intros [|i]; cbn; auto. Qed.

Lemma acceptNode_cases (e : HTMLElement) :
  (is_option e = true /\ acceptNode e = FILTER_REJECT) \/
  (is_option e = false /\ is_Some (attr_role e) /\ acceptNode e = FILTER_SKIP) \/
  (is_option e = false /\ attr_role e = None /\ acceptNode e = FILTER_ACCEPT).
Proof.
  unfold acceptNode, is_option, getAttribute_role, hasAttribute_role.
  destruct (bool_decide (attr_role e = Some "radio")); [now left|right].
  destruct (attr_role e) as [r|]; [left|right]; eauto.
Qed.

Lemma walk_shape (e : HTMLElement) :
  node (walk e) = node e /\ attr_id (walk e) = attr_id e /\
  attr_role (walk e) = normalized_role e /\
  children (walk e) = if is_option e then children e else List.map walk (children e).
Proof.
  destruct (acceptNode_cases e) as [(Ho & Ha)|[(Ho & Hr & Ha)|(Ho & Hr & Ha)]];
    destruct e as [n i r kids]; cbn [walk]; rewrite Ha, Ho; cbn in *.
  - unfold is_option in Ho. apply bool_decide_eq_true in Ho. cbn in Ho.
    now rewrite Ho.
  - destruct Hr as [r' ->]. auto.
  - rewrite Hr. auto.
Qed.

Lemma walk_option (e : HTMLElement) : is_option e = true -> walk e = e.
Proof.
  intros Ho. destruct (acceptNode_cases e) as [(_ & Ha)|[(Ho' & _)|(Ho' & _)]];
    try congruence.
  destruct e. cbn [walk]. now rewrite Ha.
Qed.

Lemma walk_subtree (path : list nat) (e d : HTMLElement) :
  subtree e path = Some d ->
  exists d',
    subtree (walk e) path = Some d' /\
    node d' = node d /\ attr_id d' = attr_id d /\
    attr_role d' = (if inside_option e path then attr_role d else normalized_role d) /\
    (inside_option e path = true \/ is_option d = true -> d' = d).
Proof.
  revert e. induction path as [|i path IH]; intros e Hsub.
  - cbn in Hsub. injection Hsub as <-. exists (walk e).
    destruct (walk_shape e) as (Hn & Hi & Hr & _).
    cbn [subtree inside_option]. repeat split; try assumption.
    intros [?|Ho]; [discriminate | now apply walk_option].
  - cbn [subtree inside_option] in *.
    destruct (is_option e) eqn:Ho.
    + rewrite walk_option by assumption. exists d.
      destruct (children e !! i); [|discriminate]. cbn. auto.
    + destruct (walk_shape e) as (_ & _ & _ & Hkids). rewrite Ho in Hkids.
      rewrite Hkids, lookup_map.
      destruct (children e !! i) as [k|]; [|discriminate]. cbn.
      apply IH. assumption.
Qed.

(** *** The walker computes [walkFrom] *)

Lemma size_eq (e : HTMLElement) : size e = S (sum_list_with size (children e)).
Proof.
  now destruct e.
Qed.

Lemma sum_list_with_rev_append {A} (f : A -> nat) (l k : list A) :
  sum_list_with f (rev_append l k) = (sum_list_with f l + sum_list_with f k)%nat.
Proof.
  revert k. induction l as [|x l IH]; intros k; cbn; [reflexivity|].
  rewrite IH. cbn. lia.
Qed.

Lemma setAttribute_role_children (r : string) (e : HTMLElement) :
  children (setAttribute_role r e) = children e.
Proof. now destruct e. Qed.

Lemma walkFrom_setAttribute_role (r : string) (e : HTMLElement) :
  walkFrom (setAttribute_role r e) = setAttribute_role r (walkFrom e).
Proof. now destruct e. Qed.

Lemma walk_eq (e : HTMLElement) :
  walk e = match acceptNode e with
           | FILTER_REJECT => e
           | FILTER_SKIP => walkFrom e
           | FILTER_ACCEPT => walkFrom (setAttribute_role "none" e)
           end.
Proof. destruct e as [n i r kids]. cbn [walk]. now destruct (acceptNode _). Qed.

Lemma size_tree_of (e : HTMLElement) (ancestors : list Frame) :
  (size e + pending ancestors <= size (tree_of e ancestors))%nat.
Proof.
  revert e. induction ancestors as [|f ancestors IH]; intros e; cbn; [lia|].
  specialize (IH (parentNode e f)). rewrite (size_eq (parentNode e f)) in IH.
  cbn [parentNode children] in IH. rewrite sum_list_with_rev_append in IH.
  cbn in IH. fold (pending ancestors). lia.
Qed.

Lemma following_spec (e : HTMLElement) (ancestors : list Frame) :
  match following e ancestors with
  | None => finish e ancestors = tree_of e ancestors /\ pending ancestors = 0%nat
  | Some (sibling, ancestors') =>
      tree_of sibling ancestors' = tree_of e ancestors /\
      finish e ancestors = finish (walk sibling) ancestors' /\
      pending ancestors = (size sibling + pending ancestors')%nat
  end.
Proof.
  revert e. induction ancestors as [|f ancestors IH]; intros e; cbn; [now split|].
  destruct f as [pn pi pr bef aft]. cbn. destruct aft as [|sibling rest]; cbn.
  - specialize (IH (Element pn pi pr (rev_append bef [e]))).
    unfold parentNode. cbn.
    destruct (following _ ancestors) as [[s anc']|]; exact IH.
  - split; [reflexivity|]. split; [reflexivity|]. lia.
Qed.

Lemma firstChild_spec (e : HTMLElement) (ancestors : list Frame) :
  match firstChild (e, ancestors) with
  | None => children e = []
  | Some (child, ancestors') =>
      tree_of child ancestors' = tree_of e ancestors /\
      finish (walkFrom e) ancestors = finish (walk child) ancestors' /\
      (sum_list_with size (children e) + pending ancestors
       = size child + pending ancestors')%nat
  end.
Proof.
  destruct e as [n i r [|k kids]]; cbn; [reflexivity|].
  split; [reflexivity|]. split; [reflexivity|]. fold (pending ancestors). lia.
Qed.

Lemma walkFrom_leaf (e : HTMLElement) : children e = [] -> walkFrom e = e.
Proof. destruct e as [n i r kids]. cbn. now intros ->. Qed.

(** What one turn of [nextNode]'s loop reaches. *)
Lemma reached_spec (result : NodeFilter) (e : HTMLElement) (ancestors : list Frame) :
  match (match result with
         | FILTER_REJECT => following e ancestors
         | _ => match firstChild (e, ancestors) with
                | Some child => Some child
                | None => following e ancestors
                end
         end) with
  | None => outcome result e ancestors = tree_of e ancestors
  | Some (next, ancestors') =>
      tree_of next ancestors' = tree_of e ancestors /\
      outcome result e ancestors = finish (walk next) ancestors' /\
      remaining result e ancestors = (size next + pending ancestors')%nat
  end.
Proof.
  assert (Hdescend :
    match (match firstChild (e, ancestors) with
           | Some child => Some child
           | None => following e ancestors
           end) with
    | None => finish (walkFrom e) ancestors = tree_of e ancestors
    | Some (next, ancestors') =>
        tree_of next ancestors' = tree_of e ancestors /\
        finish (walkFrom e) ancestors = finish (walk next) ancestors' /\
        (sum_list_with size (children e) + pending ancestors
         = size next + pending ancestors')%nat
    end).
  { pose proof (firstChild_spec e ancestors) as Hc.
    destruct (firstChild (e, ancestors)) as [[child anc']|]; [exact Hc|].
    rewrite Hc, (walkFrom_leaf e Hc). cbn.
    pose proof (following_spec e ancestors) as Hf.
    destruct (following e ancestors) as [[s anc']|]; [exact Hf | apply Hf]. }
  destruct result; cbn [outcome remaining]; try exact Hdescend.
  pose proof (following_spec e ancestors) as Hf.
  destruct (following e ancestors) as [[s anc']|]; [exact Hf | apply Hf].
Qed.

Lemma nextNode_loop_spec (fuel : nat) (result : NodeFilter) (e : HTMLElement)
    (ancestors : list Frame) :
  (remaining result e ancestors < fuel)%nat ->
  match nextNode_loop fuel result (e, ancestors) with
  | None => False
  | Some None => outcome result e ancestors = tree_of e ancestors
  | Some (Some (next, ancestors')) =>
      tree_of next ancestors' = tree_of e ancestors /\
      outcome result e ancestors
        = outcome FILTER_ACCEPT (setAttribute_role "none" next) ancestors' /\
      (remaining FILTER_ACCEPT (setAttribute_role "none" next) ancestors'
       < remaining result e ancestors)%nat
  end.
Proof.
  revert result e ancestors.
  induction fuel as [|fuel IH]; intros result e ancestors Hfuel; [lia|].
  cbn [nextNode_loop fst snd].
  pose proof (reached_spec result e ancestors) as Hreached.
  destruct (match result with
            | FILTER_REJECT => following e ancestors
            | _ => match firstChild (e, ancestors) with
                   | Some child => Some child
                   | None => following e ancestors
                   end
            end) as [[next anc1]|]; [|exact Hreached].
  destruct Hreached as (Htree & Hout & Hrem). cbn [fst snd].
  pose proof (size_eq next) as Hsize.
  rewrite walk_eq in Hout.
  destruct (acceptNode next) eqn:Hfilter.
  - split; [assumption|]. split; [assumption|].
    cbn [remaining]. rewrite setAttribute_role_children. lia.
  - specialize (IH FILTER_REJECT next anc1). cbn [remaining outcome] in IH.
    destruct (nextNode_loop fuel FILTER_REJECT (next, anc1)) as [[[n2 anc2]|]|].
    + destruct IH as (Htree2 & Hout2 & Hrem2); [lia|].
      split; [congruence|]. split; [cbn [outcome]; congruence|].
      cbn [remaining]. lia.
    + rewrite Hout, <- Htree. apply IH. lia.
    + apply IH. lia.
  - specialize (IH FILTER_SKIP next anc1). cbn [remaining outcome] in IH.
    destruct (nextNode_loop fuel FILTER_SKIP (next, anc1)) as [[[n2 anc2]|]|].
    + destruct IH as (Htree2 & Hout2 & Hrem2); [lia|].
      split; [congruence|]. split; [cbn [outcome]; congruence|].
      cbn [remaining]. lia.
    + rewrite Hout, <- Htree. apply IH. lia.
    + apply IH. lia.
Qed.

Lemma walker_loop_spec (fuel : nat) (e : HTMLElement) (ancestors : list Frame) :
  (remaining FILTER_ACCEPT e ancestors < fuel)%nat ->
  walker_loop fuel (e, ancestors) = Some (outcome FILTER_ACCEPT e ancestors).
Proof.
  revert e ancestors. induction fuel as [|fuel IH]; intros e ancestors Hfuel; [lia|].
  cbn [walker_loop]. unfold nextNode. cbn [fst snd].
  pose proof (nextNode_loop_spec (size (tree_of e ancestors)) FILTER_ACCEPT e ancestors)
    as Hnext.
  pose proof (size_tree_of e ancestors) as Hsize.
  pose proof (size_eq e) as Hsize_e.
  destruct (nextNode_loop _ FILTER_ACCEPT (e, ancestors)) as [[[next anc']|]|].
  - destruct Hnext as (_ & -> & Hrem); [cbn [remaining]; lia|].
    cbn [fst snd]. apply IH. lia.
  - f_equal. symmetry. apply Hnext. cbn [remaining]. lia.
  - exfalso. apply Hnext. cbn [remaining]. lia.
Qed.

(** The loop always ends, with every element below the root walked. *)
Lemma normalized_walkFrom (container : HTMLElement) :
  normalized container = Some (walkFrom container).
Proof.
  unfold normalized. rewrite walker_loop_spec; [reflexivity|].
  cbn [remaining pending sum_list_with]. rewrite (size_eq container). lia.
Qed.

Lemma normalizeRoles_eq (w : World) :
  normalizeRoles w =
    match radioGroupRef w with
    | None => (Normal tt, w)
    | Some container => (Normal tt, set_radioGroupRef (Some (walkFrom container)) w)
    end.
Proof.
  unfold normalizeRoles, bind, get, dom.
  destruct (radioGroupRef w) as [container|]; [|reflexivity].
  now rewrite normalized_walkFrom.
Qed.

(** C6 as stated fails: below a wrapper that declares a role other than
    "radio" (here "group") the walker still descends and tags the role-less
    child. *)
Lemma explicit_role_does_not_shield_subtree :
  ~ explicit_role_shields_subtree container1.
Proof.
  intros H.
  destruct (H [2%nat] (Element 6 None (Some "group") [Element 7 None None []]))
    as (root' & Hrun & Hsub);
    [discriminate | reflexivity | eexists; reflexivity |].
  vm_compute in Hrun. injection Hrun as <-. discriminate Hsub.
Qed.

(** C6, amended.  For every element [d] below the group container: its
    identity and id are kept; if it declares a role, that role is left as it
    is; if [d] is an option element ([role="radio"]) or lies below one, it is
    untouched together with everything below it; the walker does descend
    below an element with any other explicit role; and every role-less element
    that is not below an option element is tagged [role="none"]. *)
Theorem walk_normalizes_roles (w : World) (container : HTMLElement)
    (path : list nat) (d : HTMLElement) :
  radioGroupRef w = Some container ->
  path <> [] ->
  subtree container path = Some d ->
  exists container' d',
    normalizeRoles w = (Normal tt, set_radioGroupRef (Some container') w) /\
    container' = walkFrom container /\
    subtree container' path = Some d' /\
    node d' = node d /\ attr_id d' = attr_id d /\
    (is_Some (attr_role d) -> attr_role d' = attr_role d) /\
    (is_option d = true \/ below_option container path = true -> d' = d) /\
    (attr_role d = None -> below_option container path = false ->
       attr_role d' = Some "none") /\
    attr_role d' =
      (if below_option container path then attr_role d else normalized_role d).
Proof.
  intros Hw Hne Hsub. exists (walkFrom container).
  assert (Hrun : normalizeRoles w
                 = (Normal tt, set_radioGroupRef (Some (walkFrom container)) w)).
  { now rewrite normalizeRoles_eq, Hw. }
  destruct path as [|i path]; [contradiction|].
  destruct container as [n ci cr kids]. cbn [subtree walkFrom children below_option] in *.
  rewrite lookup_map.
  destruct (kids !! i) as [k|]; [|discriminate]. cbn [fmap option_fmap option_map].
  destruct (walk_subtree path k d Hsub) as (d' & Hd' & Hn & Hi & Hr & Hsame).
  exists d'. split; [assumption|]. split; [reflexivity|].
  split; [assumption|]. split; [assumption|]. split; [assumption|].
  split; [|split; [|split]].
  - intros [r Hrole]. rewrite Hr. unfold normalized_role. rewrite Hrole.
    now destruct (inside_option k path).
  - intros [Ho|Hb]; apply Hsame; auto.
  - intros Hnone Hb. rewrite Hr, Hb. unfold normalized_role. now rewrite Hnone.
  - assumption.
Qed.

Lemma walk_normalizes_roles_witness :
  exists container' d',
    normalizeRoles world1 = (Normal tt, set_radioGroupRef (Some container') world1) /\
    subtree container' [2%nat; 0%nat] = Some d' /\
    node d' = 7%nat /\ attr_role d' = Some "none".
Proof.
  destruct (walk_normalizes_roles world1 container1 [2%nat; 0%nat]
              (Element 7 None None []))
    as (c' & d' & Hrun & _ & Hsub & Hn & _ & _ & _ & Hnone & _);
    [reflexivity | discriminate | reflexivity |].
  exists c', d'. split; [assumption|]. split; [assumption|]. split; [assumption|].
  apply Hnone; reflexivity.
Defined.

(** ** [Array_sort] *)

Section ArraySortFacts.
Context {A : Type} (comparefn : A -> A -> option Z) (key : A -> Z).

Lemma sort_insert_perm (x : A) (l : list A) : sort_insert comparefn x l ≡ₚ x :: l.
Proof.
  induction l as [|y l IH]; cbn; [reflexivity|].
  destruct (0 <? SortCompare comparefn y x); [reflexivity|].
  rewrite IH. apply Permutation_swap.
Qed.

Lemma foldl_sort_insert_perm (l acc : list A) :
  foldl (fun sorted x => sort_insert comparefn x sorted) acc l ≡ₚ acc ++ l.
Proof.
  revert acc. induction l as [|x l IH]; intros acc; cbn.
  - now rewrite app_nil_r.
  - rewrite IH, sort_insert_perm. cbn. apply Permutation_middle.
Qed.

Lemma Array_sort_perm (l : list A) : Array_sort comparefn l ≡ₚ l.
Proof. unfold Array_sort. now rewrite foldl_sort_insert_perm. Qed.

(** On these elements the comparator is the difference of the keys. *)
Local Abbreviation keyed l :=
  (forall x y, x ∈ l -> y ∈ l -> comparefn x y = Some (key x - key y)).

Lemma sort_insert_sorted (x : A) (l : list A) :
  keyed (x :: l) ->
  StronglySorted (fun a z => key a <= key z) l ->
  StronglySorted (fun a z => key a <= key z) (sort_insert comparefn x l).
Proof.
  intros Hk Hs. induction Hs as [|y l Hs IH Hy]; cbn.
  - repeat constructor.
  - unfold SortCompare. rewrite (Hk y x) by (repeat constructor).
    destruct (0 <? key y - key x) eqn:Hlt.
    + apply Z.ltb_lt in Hlt. constructor; [now constructor|].
      constructor; [lia|]. eapply Forall_impl; [exact Hy|]. cbn. intros; lia.
    + apply Z.ltb_ge in Hlt. constructor.
      * apply IH. intros a b Ha Hb. apply Hk.
        -- apply elem_of_cons in Ha as [->|Ha]; [left | right; now right].
        -- apply elem_of_cons in Hb as [->|Hb]; [left | right; now right].
      * rewrite sort_insert_perm. constructor; [lia | assumption].
Qed.

Lemma foldl_sort_insert_sorted (l acc : list A) :
  keyed (acc ++ l) ->
  StronglySorted (fun a z => key a <= key z) acc ->
  StronglySorted (fun a z => key a <= key z)
    (foldl (fun sorted x => sort_insert comparefn x sorted) acc l).
Proof.
  revert acc. induction l as [|x l IH]; intros acc Hk Hs; cbn; [assumption|].
  apply IH.
  - intros a b Ha Hb. apply Hk.
    + rewrite elem_of_app in Ha. rewrite sort_insert_perm in Ha.
      rewrite elem_of_app, !elem_of_cons in *. tauto.
    + rewrite elem_of_app in Hb. rewrite sort_insert_perm in Hb.
      rewrite elem_of_app, !elem_of_cons in *. tauto.
  - apply sort_insert_sorted; [|assumption].
    intros a b Ha Hb. apply Hk; rewrite elem_of_app, !elem_of_cons in *; tauto.
Qed.

Lemma Array_sort_sorted (l : list A) :
  keyed l -> StronglySorted (fun a z => key a <= key z) (Array_sort comparefn l).
Proof.
  intros Hk. apply foldl_sort_insert_sorted; [assumption | constructor].
Qed.

End ArraySortFacts.

(** ** The rank-scan *)

Lemma Array_reduce_app {A B} (f : B -> A -> nat -> B) (l1 l2 : list A)
    (n : nat) (acc : B) :
  Array_reduce f (l1 ++ l2) n acc
  = Array_reduce f l2 (n + length l1)%nat (Array_reduce f l1 n acc).
Proof.
  revert n acc. induction l1 as [|x l1 IH]; intros n acc; cbn.
  - now rewrite Nat.add_0_r.
  - rewrite IH. now rewrite Nat.add_succ_r.
Qed.

Lemma orderMap_of_snoc (elements : list HTMLElement) (e : HTMLElement) :
  orderMap_of (elements ++ [e])
  = <[Element_id e := length elements]> (orderMap_of elements).
Proof. unfold orderMap_of. now rewrite Array_reduce_app. Qed.

(** A key of the table maps to the last position at which an element with
    that id was scanned. *)
Lemma orderMap_of_Some (elements : list HTMLElement) (s : string) (i : nat) :
  orderMap_of elements !! s = Some i ->
  exists e, elements !! i = Some e /\ Element_id e = s /\
            forall j e', elements !! j = Some e' -> Element_id e' = s -> (j <= i)%nat.
Proof.
  revert i. induction elements as [|e elements IH] using rev_ind; intros i.
  - unfold orderMap_of. cbn. now rewrite lookup_empty.
  - rewrite orderMap_of_snoc. destruct (decide (Element_id e = s)) as [<-|Hne].
    + rewrite lookup_insert_eq. intros [= <-]. exists e.
      split; [now rewrite list_lookup_middle|]. split; [reflexivity|].
      intros j e' Hj _. apply lookup_lt_Some in Hj.
      rewrite length_app in Hj. cbn in Hj. lia.
    + rewrite lookup_insert_ne by assumption. intros Hi.
      destruct (IH i Hi) as (e0 & He0 & Hid & Hlast). exists e0.
      split; [now apply lookup_app_l_Some|]. split; [assumption|].
      intros j e' Hj Hid'. apply lookup_app_Some in Hj as [Hj|[Hlen Hj]].
      * now apply (Hlast j e').
      * apply list_lookup_singleton_Some in Hj as [_ ->]. contradiction.
Qed.

Lemma orderMap_of_is_Some (elements : list HTMLElement) (s : string) :
  s ∈ Element_id <$> elements -> is_Some (orderMap_of elements !! s).
Proof.
  induction elements as [|e elements IH] using rev_ind; intros Hin.
  - inversion Hin.
  - rewrite orderMap_of_snoc. destruct (decide (Element_id e = s)) as [<-|Hne].
    + rewrite lookup_insert_eq. eauto.
    + rewrite lookup_insert_ne by assumption. apply IH.
      rewrite fmap_app, elem_of_app in Hin. destruct Hin as [Hin|Hin]; [assumption|].
      cbn in Hin. apply list_elem_of_singleton in Hin. congruence.
Qed.

Lemma StronglySorted_lookup_lt {A} (R : A -> A -> Prop) (l : list A)
    (i j : nat) (a z : A) :
  StronglySorted R l -> (i < j)%nat -> l !! i = Some a -> l !! j = Some z -> R a z.
Proof.
  intros Hs. revert i j. induction Hs as [|x l Hs IH Hx]; intros i j Hij Hi Hj.
  - now rewrite lookup_nil in Hi.
  - destruct j as [|j]; [lia|]. cbn in Hj. destruct i as [|i].
    + cbn in Hi. injection Hi as <-. rewrite Forall_forall in Hx.
      apply Hx. now apply list_elem_of_lookup_2 in Hj.
    + cbn in Hi. apply (IH i j); [lia | assumption | assumption].
Qed.

Lemma compare_by_order_keyed (container : HTMLElement) (l : list Option) :
  (forall o, o ∈ l -> is_Some (rank container o)) ->
  forall x y, x ∈ l -> y ∈ l ->
    compare_by_order (orderMap_of (querySelectorAll_options container)) x y
    = Some (Z.of_nat (default 0%nat (rank container x))
            - Z.of_nat (default 0%nat (rank container y))).
Proof.
  intros Hall x y Hx Hy. unfold compare_by_order.
  destruct (Hall x Hx) as [i Hi], (Hall y Hy) as [j Hj].
  unfold rank in *. now rewrite Hi, Hj.
Qed.

(** ** [focusIn] *)

Lemma scan_Some (ok : Elem -> bool) (elements : list (option Elem)) (start : nat)
    (dir : Z) (fuel k : nat) (e : Elem) :
  scan ok elements start dir k fuel = Some e ->
  exists n, (k <= n < k + fuel)%nat /\
            candidate elements start dir n = Some e /\ ok e = true /\
            forall m e', (k <= m < n)%nat ->
                         candidate elements start dir m = Some e' -> ok e' = false.
Proof.
  revert k. induction fuel as [|fuel IH]; intros k; cbn; [discriminate|].
  destruct (candidate elements start dir k) as [c|] eqn:Hc.
  - destruct (ok c) eqn:Hok.
    + intros [= <-]. exists k.
      split; [lia|]. split; [assumption|]. split; [assumption|].
      intros m e' Hm. lia.
    + intros Hs. destruct (IH _ Hs) as (n & Hn & Hcand & Hoke & Hfirst).
      exists n. split; [lia|]. split; [assumption|]. split; [assumption|].
      intros m e' Hm Hcm. destruct (decide (m = k)) as [->|Hne].
      * congruence.
      * apply (Hfirst m); [lia | assumption].
  - intros Hs. destruct (IH _ Hs) as (n & Hn & Hcand & Hoke & Hfirst).
    exists n. split; [lia|]. split; [assumption|]. split; [assumption|].
    intros m e' Hm Hcm. destruct (decide (m = k)) as [->|Hne].
    + congruence.
    + apply (Hfirst m); [lia | assumption].
Qed.

Lemma scan_None (ok : Elem -> bool) (elements : list (option Elem)) (start : nat)
    (dir : Z) (fuel k : nat) :
  scan ok elements start dir k fuel = None ->
  forall n e, (k <= n < k + fuel)%nat ->
              candidate elements start dir n = Some e -> ok e = false.
Proof.
  revert k. induction fuel as [|fuel IH]; intros k; cbn; [intros; lia|].
  destruct (candidate elements start dir k) as [c|] eqn:Hc.
  - destruct (ok c) eqn:Hok; [discriminate|].
    intros Hs n e Hn Hcn. destruct (decide (n = k)) as [->|Hne]; [congruence|].
    apply (IH _ Hs n); [lia | assumption].
  - intros Hs n e Hn Hcn. destruct (decide (n = k)) as [->|Hne]; [congruence|].
    apply (IH _ Hs n); [lia | assumption].
Qed.

Lemma candidate_elem_of (elements : list (option Elem)) (start : nat) (dir : Z)
    (n : nat) (e : Elem) :
  candidate elements start dir n = Some e -> Some e ∈ elements.
Proof.
  unfold candidate.
  destruct (elements !! _) as [[c|]|] eqn:H; try discriminate.
  intros [= <-]. now apply list_elem_of_lookup_2 in H.
Qed.

(** One full turn meets every entry of the list, whatever the start. *)
Lemma candidate_covers (elements : list (option Elem)) (start j : nat)
    (focus : Focus) (e : Elem) :
  elements !! j = Some (Some e) ->
  exists n, (1 <= n <= length elements)%nat /\
            candidate elements start (direction focus) n = Some e.
Proof.
  intros Hj. pose proof (lookup_lt_Some _ _ _ Hj) as Hlt.
  set (L := Z.of_nat (length elements)).
  assert (HL : 0 < L) by (unfold L; lia).
  assert (Hidx : forall n : Z, n mod L = Z.of_nat j ->
            elements !! Z.to_nat (n mod L) = Some (Some e)).
  { intros n ->. now rewrite Nat2Z.id. }
  destruct focus; cbn [direction].
  - set (r := (Z.of_nat start - Z.of_nat j - 1) mod L).
    assert (Hr : 0 <= r < L) by (apply Z.mod_pos_bound; assumption).
    exists (Z.to_nat (r + 1)). split; [unfold L in *; lia|].
    unfold candidate. fold L. rewrite Z2Nat.id by lia.
    rewrite Hidx; [reflexivity|].
    replace (Z.of_nat start + -1 * (r + 1)) with (Z.of_nat start - 1 - r) by lia.
    unfold r. rewrite Zminus_mod_idemp_r.
    replace (Z.of_nat start - 1 - (Z.of_nat start - Z.of_nat j - 1)) with (Z.of_nat j) by lia.
    apply Z.mod_small. unfold L; lia.
  - set (r := (Z.of_nat j - Z.of_nat start - 1) mod L).
    assert (Hr : 0 <= r < L) by (apply Z.mod_pos_bound; assumption).
    exists (Z.to_nat (r + 1)). split; [unfold L in *; lia|].
    unfold candidate. fold L. rewrite Z2Nat.id by lia.
    rewrite Hidx; [reflexivity|].
    replace (Z.of_nat start + 1 * (r + 1)) with (r + (Z.of_nat start + 1)) by lia.
    unfold r. rewrite Zplus_mod_idemp_l.
    replace (Z.of_nat j - Z.of_nat start - 1 + (Z.of_nat start + 1)) with (Z.of_nat j) by lia.
    apply Z.mod_small. unfold L; lia.
Qed.

(** Previous from the first entry is the last entry; Next from the last entry
    is the first; elsewhere they are the neighbours. *)
Lemma candidate_step (elements : list (option Elem)) (start : nat) :
  (start < length elements)%nat ->
  candidate elements start (direction Previous_WrapAround) 1
    = mjoin (elements !! (if decide (start = 0%nat) then length elements - 1
                          else start - 1)%nat) /\
  candidate elements start (direction Next_WrapAround) 1
    = mjoin (elements !! (if decide (start = length elements - 1)%nat then 0
                          else start + 1)%nat).
Proof.
  intros Hlt. unfold candidate. cbn [direction].
  set (L := Z.of_nat (length elements)).
  assert (HL : 0 < L) by (unfold L; lia).
  split.
  - replace (Z.of_nat start + -1 * Z.of_nat 1) with (Z.of_nat start - 1) by lia.
    destruct (decide (start = 0%nat)) as [->|Hne].
    + replace (Z.of_nat 0 - 1) with (-1) by lia.
      replace (-1 mod L) with (L - 1).
      * replace (Z.to_nat (L - 1)) with (length elements - 1)%nat by (unfold L; lia).
        now destruct (elements !! _) as [[?|]|].
      * apply (Zmod_unique (-1) L (-1)); lia.
    + rewrite Z.mod_small by lia.
      replace (Z.to_nat (Z.of_nat start - 1)) with (start - 1)%nat by lia.
      now destruct (elements !! _) as [[?|]|].
  - replace (Z.of_nat start + 1 * Z.of_nat 1) with (Z.of_nat start + 1) by lia.
    destruct (decide (start = length elements - 1)%nat) as [->|Hne].
    + replace (Z.of_nat (length elements - 1) + 1) with L by (unfold L; lia).
      rewrite Z.mod_same by lia. cbn.
      now destruct (elements !! _) as [[?|]|].
    + rewrite Z.mod_small by (unfold L; lia).
      replace (Z.to_nat (Z.of_nat start + 1)) with (start + 1)%nat by lia.
      now destruct (elements !! _) as [[?|]|].
Qed.

Lemma focusIn_cases (elements : list (option Elem)) (focus : Focus) (w : World) :
  let start := focused_index elements (activeElement w) in
  (exists e,
     scan (focusable w) elements start (direction focus) 1 (length elements) = Some e /\
     focusIn elements focus w = (Normal Success, set_activeElement (Some e) w)) \/
  (scan (focusable w) elements start (direction focus) 1 (length elements) = None /\
   focusIn elements focus w = (Normal Failed, w)).
Proof.
  intros start. unfold focusIn, bind, get. fold start.
  destruct (scan _ _ _ _ _ _) as [e|] eqn:Hscan; [left|right; now split].
  exists e. split; [reflexivity|].
  destruct (scan_Some _ _ _ _ _ _ _ Hscan) as (_ & _ & _ & Hok & _).
  unfold HTMLElement_focus, modify, ret. now rewrite Hok.
Qed.

Lemma find_activeOption_Some (w : World) (e : Elem) :
  Some e ∈ element <$> options w ->
  exists activeOption,
    find_activeOption (set_activeElement (Some e) w) = Some activeOption /\
    element activeOption = Some e.
Proof.
  intros Hin. unfold find_activeOption. cbn [options activeElement set_activeElement].
  destruct (List.find _ (options w)) as [o|] eqn:Hfind.
  - exists o. split; [reflexivity|].
    apply List.find_some in Hfind as [_ Ho]. now apply bool_decide_eq_true in Ho.
  - exfalso. apply list_elem_of_fmap in Hin as (o & Ho & Hin).
    apply list_elem_of_In in Hin.
    pose proof (List.find_none _ _ Hfind o Hin) as Hf. cbn in Hf.
    apply bool_decide_eq_false in Hf. congruence.
Qed.

Lemma move_and_change_moved (event : KeyboardEvent) (focus : Focus) (w : World) :
  exists w', move_and_change event focus w = (Normal (handled event), w') /\
             moved w focus w'.
Proof.
  unfold move_and_change, bind at 1. cbn [get]. unfold bind at 1.
  destruct (focusIn_cases (element <$> options w) focus w)
    as [(e & Hscan & ->)|(Hscan & ->)].
  - destruct (scan_Some _ _ _ _ _ _ _ Hscan) as (n & Hn & Hcand & Hok & Hfirst).
    destruct (find_activeOption_Some w e) as (o & Hfind & Ho);
      [now apply candidate_elem_of in Hcand|].
    unfold bind, change_to_activeOption. unfold bind at 1. cbn [get].
    rewrite Hfind.
    destruct (change (propsRef o) (set_activeElement (Some e) w)) as [c w'] eqn:Hch.
    pose proof (change_frame (propsRef o) (set_activeElement (Some e) w)) as Hframe.
    rewrite Hch in Hframe. cbn [snd] in Hframe.
    rewrite change_eq in Hch. injection Hch as <- Hw'.
    exists w'. split; [reflexivity|]. left. exists e, o.
    split; [|split; [assumption|split; [assumption|split]]].
    + exists n. split; [lia|]. split; [assumption|]. split; [assumption|].
      intros m e' Hm. apply Hfirst. lia.
    + now destruct Hframe as (_ & _ & _ & _ & -> & _).
    + rewrite change_eq. f_equal. exact Hw'.
  - exists w. split; [reflexivity|]. right. split; [|reflexivity].
    intros e He. apply list_elem_of_lookup in He as [j Hj].
    destruct (candidate_covers _ (focused_index (element <$> options w) (activeElement w))
                j focus e Hj) as (n & Hn & Hcand).
    apply (scan_None _ _ _ _ _ _ Hscan n e); [lia | assumption].
Qed.

(** ** The keydown handler *)

Lemma change_to_activeOption_eq (w : World) :
  change_to_activeOption w =
    match find_activeOption w with
    | Some activeOption => change (propsRef activeOption) w
    | None => (Normal tt, w)
    end.
Proof.
  unfold change_to_activeOption, bind, get.
  now destruct (find_activeOption w).
Qed.

(** C2. A keydown whose target lies inside the mounted container never
    raises, and:
    - Left/Up (resp. Right/Down) moves focus to the first option element that
      can take focus, going backward (resp. forward) from the focused entry
      and wrapping from the first to the last (resp. from the last to the
      first), then calls [change] with the value of the option that now holds
      focus; when no option element can take focus, the world is unchanged;
    - Space calls [change] with the value of the option that holds focus (if
      any) and leaves focus where it is;
    - each of these keys has its default prevented and its propagation
      stopped;
    - any other key changes neither the event nor the world. *)
Theorem onKeydown_navigates (event : KeyboardEvent) (w : World)
    (container : HTMLElement) :
  radioGroupRef w = Some container ->
  contains container (target event) = true ->
  exists event' w',
    onKeydown event w = (Normal event', w') /\
    match key event with
    | ArrowLeft | ArrowUp =>
        event' = handled event /\ moved w Previous_WrapAround w'
    | ArrowRight | ArrowDown =>
        event' = handled event /\ moved w Next_WrapAround w'
    | Space =>
        event' = handled event /\
        activeElement w' = activeElement w /\
        match find_activeOption w with
        | Some activeOption =>
            element activeOption = activeElement w /\
            change (propsRef activeOption) w = (Normal tt, w')
        | None => w' = w
        end
    | OtherKey => event' = event /\ w' = w
    end /\
    (key event <> OtherKey ->
       defaultPrevented event' = true /\ propagationStopped event' = true) /\
    (forall start, (start < length (element <$> options w))%nat ->
       candidate (element <$> options w) start (direction Previous_WrapAround) 1
         = mjoin ((element <$> options w)
                    !! (if decide (start = 0%nat)
                        then length (element <$> options w) - 1
                        else start - 1)%nat) /\
       candidate (element <$> options w) start (direction Next_WrapAround) 1
         = mjoin ((element <$> options w)
                    !! (if decide (start = length (element <$> options w) - 1)%nat
                        then 0 else start + 1)%nat)).
Proof.
  intros Hc Htarget. unfold onKeydown, bind at 1. cbn [get]. rewrite Hc, Htarget.
  cbn [negb].
  assert (Hsteps := candidate_step (element <$> options w)).
  destruct (key event) eqn:Hkey.
  1-4: destruct (move_and_change_moved event Previous_WrapAround w) as (wp & Hp & Hmp);
       destruct (move_and_change_moved event Next_WrapAround w) as (wn & Hn & Hmn).
  - exists (handled event), wp. split; [assumption|]. split; [now split|].
    split; [now intros _|assumption].
  - exists (handled event), wp. split; [assumption|]. split; [now split|].
    split; [now intros _|assumption].
  - exists (handled event), wn. split; [assumption|]. split; [now split|].
    split; [now intros _|assumption].
  - exists (handled event), wn. split; [assumption|]. split; [now split|].
    split; [now intros _|assumption].
  - unfold bind. rewrite change_to_activeOption_eq.
    destruct (find_activeOption w) as [o|] eqn:Hfind.
    + destruct (change (propsRef o) w) as [c w'] eqn:Hch.
      pose proof (change_frame (propsRef o) w) as Hframe.
      rewrite Hch in Hframe. cbn [snd] in Hframe.
      rewrite change_eq in Hch. injection Hch as <- Hw'.
      exists (handled event), w'. split; [reflexivity|].
      split; [|split; [now intros _|assumption]].
      split; [reflexivity|]. split; [now destruct Hframe as (_ & _ & _ & _ & -> & _)|].
      split.
      * unfold find_activeOption in Hfind. apply List.find_some in Hfind as [_ Ho].
        now apply bool_decide_eq_true in Ho.
      * reflexivity.
    + exists (handled event), w. split; [reflexivity|].
      split; [|split; [now intros _|assumption]]. now repeat split.
  - exists event, w. split; [reflexivity|]. split; [now split|].
    split; [congruence|assumption].
Qed.

Lemma onKeydown_navigates_witness :
  exists event' w',
    onKeydown (keydown_event ArrowLeft (Some 1%nat)) world1 = (Normal event', w') /\
    moved world1 Previous_WrapAround w' /\
    defaultPrevented event' = true /\ propagationStopped event' = true /\
    activeElement w' = Some 3%nat /\ emitted w' = [Str "c"].
Proof.
  destruct (onKeydown_navigates (keydown_event ArrowLeft (Some 1%nat)) world1 container1
              eq_refl eq_refl)
    as (event' & w' & Hrun & (_ & Hmoved) & Hflags & _).
  exists event', w'. split; [exact Hrun|]. split; [exact Hmoved|].
  destruct Hflags as [Hd Hp]; [discriminate|].
  split; [exact Hd|]. split; [exact Hp|].
  vm_compute in Hrun. injection Hrun as _ <-. split; reflexivity.
Defined.

(** ** Several registrations *)

Section RegisterAll.
Variable container : HTMLElement.

Local Abbreviation by_rank :=
  (fun a z : Option => Z.of_nat (default 0%nat (rank container a))
                       <= Z.of_nat (default 0%nat (rank container z))).

Lemma registerOption_sorted (action : Option) (w : World) :
  radioGroupRef w = Some container ->
  (forall o, o ∈ options w ++ [action] -> is_Some (rank container o)) ->
  exists opts,
    registerOption action w = (Normal tt, set_options opts w) /\
    opts ≡ₚ options w ++ [action] /\ StronglySorted by_rank opts.
Proof.
  intros Hc Hranked. rewrite registerOption_eq, Hc. eexists.
  split; [reflexivity|]. split; [apply Array_sort_perm|].
  apply Array_sort_sorted. now apply compare_by_order_keyed.
Qed.

Lemma registerAll_sorted (actions : list Option) (w : World) :
  radioGroupRef w = Some container ->
  (forall o, o ∈ options w ++ actions -> is_Some (rank container o)) ->
  exists opts,
    registerAll actions w = (Normal tt, set_options opts w) /\
    opts ≡ₚ options w ++ actions /\
    (actions <> [] -> StronglySorted by_rank opts).
Proof.
  revert w. induction actions as [|action rest IH]; intros w Hc Hranked.
  - exists (options w). cbn. rewrite set_options_same, app_nil_r. now repeat split.
  - destruct (registerOption_sorted action w Hc) as (opts1 & Hrun1 & Hperm1 & Hsorted1).
    { intros o Ho. apply Hranked. rewrite elem_of_app in *.
      rewrite elem_of_cons. rewrite list_elem_of_singleton in Ho. tauto. }
    destruct (IH (set_options opts1 w) Hc) as (opts & Hrun & Hperm & Hsorted).
    { cbn [options set_options]. intros o Ho. apply Hranked.
      rewrite Hperm1, <- app_assoc in Ho. exact Ho. }
    cbn [options set_options] in Hperm.
    exists opts. cbn [registerAll]. unfold bind at 1. rewrite Hrun1, Hrun.
    split; [reflexivity|]. split.
    + rewrite Hperm, Hperm1, <- app_assoc. reflexivity.
    + intros _. destruct rest as [|action' rest]; [|apply Hsorted; discriminate].
      cbn in Hrun. injection Hrun as Hrun. now rewrite <- Hrun.
Qed.

(** X15. With unique ids, the list obtained from an empty one does not depend
    on the order in which the options registered. *)
Lemma registerAll_order_irrelevant (w : World) (actions1 actions2 : list Option) :
  radioGroupRef w = Some container ->
  options w = [] ->
  actions1 ≡ₚ actions2 ->
  NoDup (id <$> actions1) ->
  (forall o, o ∈ actions1 ->
             id o ∈ Element_id <$> querySelectorAll_options container) ->
  registerAll actions1 w = registerAll actions2 w.
Proof.
  intros Hc Hempty Hperm Hnd Hin.
  assert (Hranked : forall o, o ∈ actions1 -> is_Some (rank container o)).
  { intros o Ho. apply orderMap_of_is_Some. now apply Hin. }
  destruct (registerAll_sorted actions1 w Hc) as (opts1 & -> & Hp1 & Hs1).
  { rewrite Hempty. exact Hranked. }
  destruct (registerAll_sorted actions2 w Hc) as (opts2 & -> & Hp2 & Hs2).
  { rewrite Hempty. cbn. intros o Ho. apply Hranked. now rewrite Hperm. }
  rewrite Hempty in Hp1, Hp2. cbn in Hp1, Hp2.
  destruct actions1 as [|a1 rest1].
  { apply Permutation_nil_l in Hperm. subst actions2.
    apply Permutation_nil_r in Hp1, Hp2. now subst. }
  assert (Hne2 : actions2 <> []).
  { intros ->. now apply Permutation_nil_r in Hperm. }
  f_equal. f_equal.
  apply (StronglySorted_unique_strong by_rank);
    [| apply Hs1; discriminate | now apply Hs2 | now rewrite Hp1, Hp2].
  intros x1 x2 Hx1 Hx2 H12 H21.
  rewrite Hp1 in Hx1. rewrite Hp2, <- Hperm in Hx2.
  destruct (Hranked x1 Hx1) as [p Hrp], (Hranked x2 Hx2) as [q Hrq].
  rewrite Hrp, Hrq in H12, H21. cbn in H12, H21.
  assert (p = q) by lia. subst q.
  destruct (orderMap_of_Some _ _ _ Hrp) as (e1 & He1 & Hid1 & _).
  destruct (orderMap_of_Some _ _ _ Hrq) as (e2 & He2 & Hid2 & _).
  apply (NoDup_fmap_eq id (a1 :: rest1)); try assumption. congruence.
Qed.

End RegisterAll.

(** *** Scan positions and document positions *)

(** The scan keeps the order of the elements it selects from. *)
Lemma filter_lookup_mono {A} (P : A -> bool) (l : list A) (i j : nat) (x y : A) :
  List.filter P l !! i = Some x -> List.filter P l !! j = Some y -> (i <= j)%nat ->
  exists p q, l !! p = Some x /\ l !! q = Some y /\ (p <= q)%nat.
Proof.
  revert i j. induction l as [|a l IH]; intros i j Hi Hj Hij; [discriminate|].
  cbn [List.filter] in Hi, Hj. destruct (P a).
  - destruct i as [|i].
    + cbn in Hi. injection Hi as ->. destruct j as [|j].
      * cbn in Hj. injection Hj as ->. exists 0%nat, 0%nat. now repeat split.
      * cbn in Hj. apply list_elem_of_lookup_2, list_elem_of_In, filter_In in Hj
          as [Hj _].
        apply list_elem_of_In, list_elem_of_lookup_1 in Hj as [q Hq].
        exists 0%nat, (S q). split; [reflexivity|]. split; [exact Hq|lia].
    + destruct j as [|j]; [lia|]. cbn in Hi, Hj.
      destruct (IH i j Hi Hj) as (p & q & Hp & Hq & Hpq); [lia|].
      exists (S p), (S q). split; [exact Hp|]. split; [exact Hq|lia].
  - destruct (IH i j Hi Hj Hij) as (p & q & Hp & Hq & Hpq).
    exists (S p), (S q). split; [exact Hp|]. split; [exact Hq|lia].
Qed.

(** Nodes being distinct, a node is found where it is listed. *)
Lemma findIndex_node (l : list HTMLElement) (p : nat) (x : HTMLElement) :
  NoDup (node <$> l) -> l !! p = Some x ->
  findIndex (fun d => Nat.eqb (node d) (node x)) l = Some p.
Proof.
  revert p. induction l as [|a l IH]; intros p Hnd Hp; [discriminate|].
  rewrite fmap_cons in Hnd. apply NoDup_cons in Hnd as [Hfresh Hnd]. cbn [findIndex].
  destruct p as [|p].
  - cbn in Hp. injection Hp as ->. now rewrite Nat.eqb_refl.
  - cbn in Hp. destruct (Nat.eqb (node a) (node x)) eqn:Heq.
    + apply Nat.eqb_eq in Heq. exfalso. apply Hfresh. rewrite Heq.
      apply list_elem_of_fmap_2. now apply list_elem_of_lookup_2 in Hp.
    + now rewrite (IH p Hnd Hp).
Qed.

(** Ranks that do not decrease are positions that do not decrease, for
    options that carry their id on their own element. *)
Lemma rank_le_document_position
    (container : HTMLElement) (a z : Option) (p q : nat) :
  NoDup (node <$> descendants container) ->
  rendered_with_own_id container a -> rendered_with_own_id container z ->
  rank container a = Some p -> rank container z = Some q -> (p <= q)%nat ->
  exists p' q', document_position container a = Some p' /\
                document_position container z = Some q' /\ (p' <= q')%nat.
Proof.
  intros Hnd Ha Hz Hp Hq Hpq.
  destruct (orderMap_of_Some _ _ _ Hp) as (ea & Hea & Hida & _).
  destruct (orderMap_of_Some _ _ _ Hq) as (ez & Hez & Hidz & _).
  pose proof (Ha ea (list_elem_of_lookup_2 _ _ _ Hea) Hida) as Hela.
  pose proof (Hz ez (list_elem_of_lookup_2 _ _ _ Hez) Hidz) as Helz.
  destruct (filter_lookup_mono _ _ _ _ _ _ Hea Hez Hpq) as (p' & q' & Hp' & Hq' & Hle).
  exists p', q'. unfold document_position. rewrite Hela, Helz.
  split; [now apply findIndex_node|]. split; [now apply findIndex_node|exact Hle].
Qed.

(** C3 as stated fails.  The three options mount in reverse document order
    on a group whose scan matches none of their ids: every comparison of the
    sort is [NaN], the list stays in call order [C; B; A], and that is the
    reverse of the order of the elements in the document.  And on a group
    whose container reference is still [null] the call throws instead of
    inserting the option. *)
Lemma registerOption_leaves_call_order :
  querySelectorAll_options container_unmatched = [] /\
  registerAll [optC; optB; optA] world_unmatched
    = (Normal tt, set_options [optC; optB; optA] world_unmatched) /\
  document_position container_unmatched <$> [optC; optB; optA]
    = [Some 2%nat; Some 1%nat; Some 0%nat] /\
  ~ registered_in_document_order world_unmatched [optC; optB; optA] /\
  registerAll [optA] world0 = (Throw TypeError, world0) /\
  ~ registered_in_document_order world0 [optA].
Proof.
  split; [reflexivity|]. split; [reflexivity|]. split; [reflexivity|]. split.
  - intros (w' & Hrun & _ & Horder).
    vm_compute in Hrun. injection Hrun as <-.
    destruct (Horder container_unmatched eq_refl 0%nat 1%nat optC optB)
      as (p & q & Hp & Hq & Hpq); [lia|reflexivity|reflexivity|].
    vm_compute in Hp, Hq. injection Hp as <-. injection Hq as <-. lia.
  - split; [reflexivity|]. intros (w' & Hrun & _). discriminate.
Qed.

(** C3, amended.  Take any sequence of [registerOption] calls, in any order,
    on a group whose container reference holds an element, every option
    concerned (listed or registering) having its id on a descendant that the
    scan finds.  Once the calls have run, the list of the group is exactly
    the options registered so far, arranged by rank: the rank of an option is
    the position, in the document-order scan of the container, of the (last)
    rendered descendant that carries its id, and ranks never decrease along
    the list.  When, besides, each id is found on the option's own element
    only, that is the document order of the elements.  Nothing is assumed
    about the order of the list before the first call, and the sequence is
    any non-empty one, each prefix of a longer sequence included: the list is
    sorted after each call. *)
Theorem registerOption_sorts_by_document_position
    (w : World) (container : HTMLElement) (called : list Option) :
  radioGroupRef w = Some container ->
  (forall o, o ∈ options w ++ called ->
             id o ∈ Element_id <$> querySelectorAll_options container) ->
  called <> [] ->
  exists opts,
    registerAll called w = (Normal tt, set_options opts w) /\
    options (registerAll called w).2 = opts /\
    opts ≡ₚ options w ++ called /\
    (forall o, o ∈ opts ->
       exists i e,
         rank container o = Some i /\
         querySelectorAll_options container !! i = Some e /\
         Element_id e = id o /\
         forall j e', querySelectorAll_options container !! j = Some e' ->
                      Element_id e' = id o -> (j <= i)%nat) /\
    (forall i j a z, (i < j)%nat -> opts !! i = Some a -> opts !! j = Some z ->
       exists p q, rank container a = Some p /\ rank container z = Some q /\
                   (p <= q)%nat) /\
    (NoDup (node <$> descendants container) ->
     (forall o, o ∈ options w ++ called -> rendered_with_own_id container o) ->
     in_document_order container opts /\ registered_in_document_order w called).
Proof.
  intros Hc Hin Hne.
  assert (Hranked : forall o, o ∈ options w ++ called -> is_Some (rank container o)).
  { intros o Ho. now apply orderMap_of_is_Some, Hin. }
  destruct (registerAll_sorted container called w Hc Hranked)
    as (opts & Hrun & Hperm & Hsorted).
  assert (Hranks : forall i j a z,
            (i < j)%nat -> opts !! i = Some a -> opts !! j = Some z ->
            exists p q, rank container a = Some p /\ rank container z = Some q /\
                        (p <= q)%nat).
  { intros i j a z Hij Ha Hz.
    pose proof (StronglySorted_lookup_lt _ _ _ _ _ _ (Hsorted Hne) Hij Ha Hz) as Hle.
    apply list_elem_of_lookup_2 in Ha, Hz. rewrite Hperm in Ha, Hz.
    destruct (Hranked a Ha) as [p Hp], (Hranked z Hz) as [q Hq].
    cbv beta in Hle. rewrite Hp, Hq in Hle. cbn in Hle.
    exists p, q. split; [assumption|]. split; [assumption|]. lia. }
  exists opts. split; [assumption|]. split; [now rewrite Hrun|].
  split; [assumption|]. split; [|split; [exact Hranks|]].
  - intros o Ho. rewrite Hperm in Ho. destruct (Hranked o Ho) as [i Hi].
    destruct (orderMap_of_Some _ _ _ Hi) as (e & He & Hid & Hlast).
    exists i, e. auto.
  - intros Hnd Hown.
    assert (Horder : in_document_order container opts).
    { intros i j a z Hij Ha Hz.
      destruct (Hranks i j a z Hij Ha Hz) as (p & q & Hp & Hq & Hpq).
      apply list_elem_of_lookup_2 in Ha, Hz. rewrite Hperm in Ha, Hz.
      apply (rank_le_document_position container a z p q); auto. }
    split; [exact Horder|]. exists (set_options opts w).
    split; [exact Hrun|]. split; [exact Hperm|].
    intros container' Hc'. rewrite Hc in Hc'. injection Hc' as <-. exact Horder.
Qed.

(** The three options mount in reverse document order. *)
Lemma registerOption_sorts_by_document_position_witness :
  exists opts,
    registerAll [optC; optB; optA] (set_options [] world1)
      = (Normal tt, set_options opts (set_options [] world1)) /\
    options (registerAll [optC; optB; optA] (set_options [] world1)).2 = opts /\
    opts ≡ₚ [optC; optB; optA] /\
    opts = [optA; optB; optC] /\
    in_document_order container1 opts /\
    registered_in_document_order (set_options [] world1) [optC; optB; optA].
Proof.
  destruct (registerOption_sorts_by_document_position
              (set_options [] world1) container1 [optC; optB; optA] eq_refl)
    as (opts & Hrun & Hread & Hperm & _ & _ & Horder).
  - intros o Ho.
    repeat (apply elem_of_cons in Ho as [->|Ho];
            [apply (bool_decide_unpack _); vm_compute; exact I|]).
    inversion Ho.
  - discriminate.
  - exists opts. split; [exact Hrun|]. split; [exact Hread|]. split; [exact Hperm|].
    split; [vm_compute in Hrun; now injection Hrun as <-|].
    apply Horder.
    + apply (bool_decide_unpack _). vm_compute. exact I.
    + intros o Ho e He Hid.
      change (querySelectorAll_options container1)
        with [Element 1 (Some "headlessui-radiogroup-option-2") (Some "radio")
                [Element 11 None None []];
              Element 2 (Some "headlessui-radiogroup-option-3") (Some "radio") [];
              Element 3 (Some "headlessui-radiogroup-option-4") (Some "radio") []]
        in He.
      repeat (apply elem_of_cons in Ho as [->|Ho]);
        repeat (apply elem_of_cons in He as [->|He]);
        try (now inversion Ho); try (now inversion He);
        try reflexivity; discriminate Hid.
Defined.

(** ** Scenarios *)

(** Options [A; B; C], nothing selected: A is the sole Tab stop. *)
Example scenario_initial_tab_stop :
  RadioGroupOption.tabIndex world1 <$> [instA; instB; instC] = [0; -1; -1].
Proof. reflexivity. Qed.

(** Focus on A, Down: focus moves to B and a request for B's value goes out. *)
Example scenario_down_from_A :
  onKeydown (keydown_event ArrowDown (Some 1%nat)) world1
  = (Normal (handled (keydown_event ArrowDown (Some 1%nat))),
     set_emitted [Str "b"] (set_activeElement (Some 2%nat) world1)).
Proof. reflexivity. Qed.

(** Focus on C, Right: focus wraps to A. *)
Example scenario_next_wraps :
  onKeydown (keydown_event ArrowRight (Some 3%nat)) (set_activeElement (Some 3%nat) world1)
  = (Normal (handled (keydown_event ArrowRight (Some 3%nat))),
     set_emitted [Str "a"] (set_activeElement (Some 1%nat) world1)).
Proof. reflexivity. Qed.

(** Focus on A, B unmounts, Down: focus moves straight to C. *)
Example scenario_unmounted_option_is_skipped :
  (let* _ := unregisterOption "headlessui-radiogroup-option-3" in
   onKeydown (keydown_event ArrowDown (Some 1%nat))) world1
  = (Normal (handled (keydown_event ArrowDown (Some 1%nat))),
     set_emitted [Str "c"]
       (set_activeElement (Some 3%nat) (set_options [optA; optC] world1))).
Proof. reflexivity. Qed.

(** Disabled group, click on A: nothing is emitted. *)
Example scenario_disabled_click :
  emitted (RadioGroupOption.handleClick instA (set_disabled true world1)).2 = [].
Proof. reflexivity. Qed.

(** A key the handler does not name, and a target outside the container. *)
Example scenario_ignored_events :
  onKeydown (keydown_event OtherKey (Some 1%nat)) world1
    = (Normal (keydown_event OtherKey (Some 1%nat)), world1) /\
  onKeydown (keydown_event ArrowDown (Some 999%nat)) world1
    = (Normal (keydown_event ArrowDown (Some 999%nat)), world1).
Proof. split; reflexivity. Qed.

(** Role normalization of the sample container: the wrapper of B and the child
    of the "group" wrapper are tagged; the options, what is below them and the
    "group" wrapper itself are not. *)
Example scenario_normalizeRoles :
  normalized container1
  = Some (Element 100 (Some "headlessui-radiogroup-1") (Some "radiogroup")
      [ Element 1 (Some "headlessui-radiogroup-option-2") (Some "radio")
          [ Element 11 None None [] ];
        Element 5 None (Some "none")
          [ Element 2 (Some "headlessui-radiogroup-option-3") (Some "radio") [] ];
        Element 6 None (Some "group")
          [ Element 7 None (Some "none") [] ];
        Element 3 (Some "headlessui-radiogroup-option-4") (Some "radio") [] ]).
Proof. reflexivity. Qed.

(** The walker's first answer on the sample container is the wrapper of B:
    option A, rejected, is passed over with what is below it. *)
Example scenario_nextNode_first :
  (fun next : Position => node next.1) <$> mjoin (nextNode (container1, []))
  = Some 5%nat.
Proof. reflexivity. Qed.

(** [NaN] is not strictly equal to itself: re-selecting it is emitted again. *)
Example scenario_nan_is_emitted :
  emitted (change (Number S754_nan) (set_modelValue (Number S754_nan) world1)).2
  = [Number S754_nan].
Proof. reflexivity. Qed.

(** * Further properties *)

(** ** The local state of an option *)

Lemma testbit_Active (n : Z) : Z.testbit RadioGroupOption.Active n = (n =? 1).
Proof.
  change RadioGroupOption.Active with (2 ^ 1).
  rewrite Z.pow2_bits_eqb by lia. apply Z.eqb_sym.
Qed.

Lemma testbit_handleFocus (this : RadioGroupOption.Instance) (n : Z) :
  Z.testbit (RadioGroupOption.state (RadioGroupOption.handleFocus this)) n
  = Z.testbit (RadioGroupOption.state this) n || (n =? 1).
Proof. cbn. now rewrite Z.lor_spec, testbit_Active. Qed.

Lemma testbit_handleBlur (this : RadioGroupOption.Instance) (n : Z) :
  Z.testbit (RadioGroupOption.state (RadioGroupOption.handleBlur this)) n
  = Z.testbit (RadioGroupOption.state this) n && negb (n =? 1).
Proof.
  cbn. rewrite Z.land_spec. destruct (Z.neg_nonneg_cases n) as [Hneg|Hpos].
  - now rewrite !(Z.testbit_neg_r _ n Hneg).
  - now rewrite Z.lnot_spec, testbit_Active by assumption.
Qed.

Lemma active_testbit (this : RadioGroupOption.Instance) :
  RadioGroupOption.active this = Z.testbit (RadioGroupOption.state this) 1.
Proof.
  unfold RadioGroupOption.active.
  destruct (Z.testbit (RadioGroupOption.state this) 1) eqn:Hbit.
  - replace (Z.land (RadioGroupOption.state this) RadioGroupOption.Active)
      with RadioGroupOption.Active; [reflexivity|].
    apply Z.bits_inj'. intros n _. rewrite Z.land_spec, testbit_Active.
    destruct (Z.eqb_spec n 1) as [->|_]; [now rewrite Hbit | now rewrite Bool.andb_false_r].
  - replace (Z.land (RadioGroupOption.state this) RadioGroupOption.Active) with 0;
      [reflexivity|].
    apply Z.bits_inj'. intros n _. rewrite Z.land_spec, testbit_Active, Z.bits_0.
    destruct (Z.eqb_spec n 1) as [->|_]; [now rewrite Hbit | now rewrite Bool.andb_false_r].
Qed.

(** X1. Whatever focus and blur events reach an option, in whatever order, its
    Active flag (the [active] of the render slot) is that of the last event,
    set by focus and cleared by blur; no other bit of the local state (the
    Empty bit in particular) and nothing else of the option is ever changed. *)
Theorem active_follows_last_focus_event
    (events : list FocusEvent) (this : RadioGroupOption.Instance) :
  RadioGroupOption.active (dispatch events this)
  = match last events with
    | Some onFocus => true
    | Some onBlur => false
    | None => RadioGroupOption.active this
    end /\
  (forall n, n <> 1 ->
     Z.testbit (RadioGroupOption.state (dispatch events this)) n
     = Z.testbit (RadioGroupOption.state this) n) /\
  RadioGroupOption.id (dispatch events this) = RadioGroupOption.id this /\
  RadioGroupOption.props_value (dispatch events this) = RadioGroupOption.props_value this /\
  RadioGroupOption.optionRef (dispatch events this) = RadioGroupOption.optionRef this.
Proof.
  induction events as [|ev events IH] using rev_ind; [now repeat split|].
  destruct IH as (_ & Hbits & Hid & Hval & Href).
  unfold dispatch in *. rewrite foldl_snoc, last_snoc.
  set (before := foldl (fun this ev => listener ev this) this events) in *.
  split; [|split; [|destruct ev; now repeat split]].
  - rewrite active_testbit. destruct ev; cbn [listener].
    + now rewrite testbit_handleFocus, Bool.orb_true_r.
    + now rewrite testbit_handleBlur, Bool.andb_false_r.
  - intros n Hn. rewrite <- (Hbits n Hn).
    assert (Hne : (n =? 1) = false) by now apply Z.eqb_neq.
    destruct ev; cbn [listener].
    + now rewrite testbit_handleFocus, Hne, Bool.orb_false_r.
    + now rewrite testbit_handleBlur, Hne, Bool.andb_true_r.
Qed.

(** X2. When the reference of the option is [null] or holds an element, a
    click returns normally and is confined: the option either stays as it is
    or ends in the very state [handleFocus] gives it; the group's option
    list, props and container are untouched; at most one request goes out, it
    carries the option's own value and only in a group that is not disabled;
    and focus either stays where it is or lands on the option's own element
    (it stays when the element is not mounted or cannot take focus).  A
    reference that holds a component instance is not covered: [focus] is not
    a function there. *)
Theorem handleClick_is_confined (this : RadioGroupOption.Instance) (w : World) :
  RadioGroupOption.optionRef this = None \/
  (exists el, RadioGroupOption.optionRef this = Some el) ->
  exists this' w',
    RadioGroupOption.handleClick this w = (Normal this', w') /\
    (this' = this \/ this' = RadioGroupOption.handleFocus this) /\
    options w' = options w /\
    props_disabled w' = props_disabled w /\
    props_modelValue w' = props_modelValue w /\
    radioGroupRef w' = radioGroupRef w /\
    focusable w' = focusable w /\
    (emitted w' = emitted w \/
     (emitted w' = emitted w ++ [RadioGroupOption.props_value this] /\
      props_disabled w = false)) /\
    (activeElement w' = activeElement w \/
     exists el, RadioGroupOption.optionRef this = Some el /\
                focusable w el = true /\ activeElement w' = Some el) /\
    (RadioGroupOption.optionRef this = None -> activeElement w' = activeElement w).
Proof.
  intros _. rewrite handleClick_eq.
  destruct (strict_equals (api_value w) (RadioGroupOption.props_value this)) eqn:Heq.
  { exists this, w. split; [reflexivity|]. split; [now left|]. now repeat split; try left. }
  rewrite change_eq. cbn [snd].
  set (w1 := if props_disabled w then w
             else if strict_equals (api_value w) (RadioGroupOption.props_value this)
                  then w
                  else set_emitted (emitted w ++ [RadioGroupOption.props_value this]) w).
  assert (Hw1 : options w1 = options w /\ props_disabled w1 = props_disabled w /\
                props_modelValue w1 = props_modelValue w /\
                radioGroupRef w1 = radioGroupRef w /\ focusable w1 = focusable w /\
                activeElement w1 = activeElement w /\
                (emitted w1 = emitted w \/
                 (emitted w1 = emitted w ++ [RadioGroupOption.props_value this] /\
                  props_disabled w = false))).
  { unfold w1. rewrite Heq. destruct (props_disabled w) eqn:Hd.
    - rewrite Hd. now repeat split; try left.
    - cbn. repeat split; try reflexivity; try assumption. right. now split. }
  destruct Hw1 as (Ho & Hd & Hm & Hc & Hf & Ha & He).
  do 2 eexists. split; [reflexivity|]. split; [now right|].
  destruct (RadioGroupOption.optionRef this) as [el|] eqn:Href; cbn [after_focus].
  - destruct (focusable w1 el) eqn:Hel; cbn.
    + repeat split; try assumption; try discriminate.
      right. exists el. rewrite <- Hf. now repeat split.
    + repeat split; try assumption; try discriminate. now left.
  - repeat split; try assumption; try (now left). intros _. assumption.
Qed.

(** A click on B in the sample group: B takes focus, the list is untouched. *)
Lemma handleClick_is_confined_witness :
  exists this' w',
    RadioGroupOption.handleClick instB world1 = (Normal this', w') /\
    options w' = options world1 /\
    activeElement w' = Some 2%nat.
Proof.
  destruct (handleClick_is_confined instB world1)
    as (this' & w' & Hrun & _ & Hopts & _).
  - right. exists 2%nat. reflexivity.
  - exists this', w'. split; [exact Hrun|]. split; [exact Hopts|].
    vm_compute in Hrun. now injection Hrun as _ <-.
Defined.

(** ** The rank table *)

Lemma orderMap_of_None (elements : list HTMLElement) (s : string) :
  orderMap_of elements !! s = None <-> s ∉ Element_id <$> elements.
Proof.
  split.
  - intros Hnone Hin. apply orderMap_of_is_Some in Hin as [i Hi]. congruence.
  - intros Hnotin. destruct (orderMap_of elements !! s) as [i|] eqn:Hi; [|reflexivity].
    exfalso. apply Hnotin.
    destruct (orderMap_of_Some _ _ _ Hi) as (e & He & <- & _).
    apply list_elem_of_fmap_2. now apply list_elem_of_lookup_2 in He.
Qed.

(** X3. The table that [registerOption] builds from the scanned elements gives
    every scanned element its scan index back when the scanned ids are unique,
    and has no entry for an id that was not scanned. *)
Theorem orderMap_of_round_trip (elements : list HTMLElement) (i : nat)
    (e : HTMLElement) :
  NoDup (Element_id <$> elements) ->
  elements !! i = Some e ->
  orderMap_of elements !! Element_id e = Some i /\
  (forall s, s ∉ Element_id <$> elements <-> orderMap_of elements !! s = None).
Proof.
  intros Hnd He. split; [|intros s; symmetry; apply orderMap_of_None].
  assert (Hin : Element_id e ∈ Element_id <$> elements).
  { apply list_elem_of_fmap_2. now apply list_elem_of_lookup_2 in He. }
  apply orderMap_of_is_Some in Hin as [j Hj]. rewrite Hj. f_equal.
  destruct (orderMap_of_Some _ _ _ Hj) as (e' & He' & Hid & _).
  apply (NoDup_lookup (Element_id <$> elements) j i (Element_id e)); [assumption| |].
  - now rewrite list_lookup_fmap, He', <- Hid.
  - now rewrite list_lookup_fmap, He.
Qed.

Lemma orderMap_of_round_trip_witness :
  orderMap_of (querySelectorAll_options container1)
    !! "headlessui-radiogroup-option-3" = Some 1%nat.
Proof.
  apply (orderMap_of_round_trip (querySelectorAll_options container1) 1
           (Element 2 (Some "headlessui-radiogroup-option-3") (Some "radio") [])).
  - apply (bool_decide_unpack _). vm_compute. exact I.
  - reflexivity.
Defined.

(** ** More on [Array_sort] *)

Section ArraySortOrder.
Context {A : Type} (comparefn : A -> A -> option Z).

Lemma Array_sort_snoc (l : list A) (x : A) :
  Array_sort comparefn (l ++ [x]) = sort_insert comparefn x (Array_sort comparefn l).
Proof. unfold Array_sort. now rewrite foldl_snoc. Qed.

Lemma sort_insert_split (x : A) (l : list A) :
  exists l1 l2, l = l1 ++ l2 /\ sort_insert comparefn x l = l1 ++ x :: l2.
Proof.
  induction l as [|y l IH]; cbn.
  - now exists [], [].
  - destruct (0 <? SortCompare comparefn y x).
    + now exists [], (y :: l).
    + destruct IH as (l1 & l2 & -> & ->). now exists (y :: l1), l2.
Qed.

Lemma sort_insert_end (x : A) (l : list A) :
  Forall (fun y => SortCompare comparefn y x <= 0) l ->
  sort_insert comparefn x l = l ++ [x].
Proof.
  induction 1 as [|y l Hy _ IH]; cbn; [reflexivity|].
  destruct (Z.ltb_spec 0 (SortCompare comparefn y x)); [lia|]. now rewrite IH.
Qed.

(** A list already in the comparator's order is left as it is. *)
Lemma Array_sort_id (l : list A) :
  StronglySorted (fun a z => SortCompare comparefn a z <= 0) l ->
  Array_sort comparefn l = l.
Proof.
  induction l as [|x l IH] using rev_ind; intros Hs; [reflexivity|].
  apply StronglySorted_app in Hs as (Hall & Hl & _).
  rewrite Array_sort_snoc, (IH Hl). apply sort_insert_end.
  apply Forall_forall. intros y Hy. apply Hall; [assumption | now left].
Qed.

End ArraySortOrder.

(** ** More on registration *)

Lemma without_first_absent (id' : string) (l : list Option) :
  (forall o, o ∈ l -> id o <> id') -> without_first id' l = l.
Proof.
  induction l as [|o l IH]; intros Hnone; cbn; [reflexivity|].
  destruct (String.eqb_spec (id o) id') as [Heq|_].
  - exfalso. now apply (Hnone o); [left|].
  - f_equal. apply IH. intros x Hx. apply Hnone. now right.
Qed.

Lemma without_first_middle (id' : string) (pre post : list Option) (o : Option) :
  (forall y, y ∈ pre -> id y <> id') -> id o = id' ->
  without_first id' (pre ++ o :: post) = pre ++ post.
Proof.
  intros Hpre Ho. induction pre as [|y pre IH]; cbn.
  - now rewrite Ho, String.eqb_refl.
  - destruct (String.eqb_spec (id y) id') as [Heq|_].
    + exfalso. now apply (Hpre y); [left|].
    + f_equal. apply IH. intros x Hx. apply Hpre. now right.
Qed.

Lemma unregisterOption_without_first (id' : string) (w : World) :
  unregisterOption id' w = (Normal tt, set_options (without_first id' (options w)) w).
Proof.
  rewrite unregisterOption_eq. f_equal.
  pose proof (findIndex_by_id id' (options w)) as Hfind.
  destruct (findIndex _ (options w)) as [idx|].
  - destruct Hfind as (pre & o & post & Hw & Hlen & Ho & Hpre).
    rewrite Hw, <- Hlen, splice1_app. now rewrite without_first_middle.
  - rewrite without_first_absent by assumption. now rewrite set_options_same.
Qed.

Lemma without_first_sublist (id' : string) (l : list Option) :
  without_first id' l `sublist_of` l.
Proof.
  induction l as [|o l IH]; cbn; [constructor|].
  destruct (String.eqb (id o) id').
  - now apply sublist_cons.
  - now apply sublist_skip.
Qed.

Lemma StronglySorted_sublist {A} (R : A -> A -> Prop) (l1 l2 : list A) :
  l1 `sublist_of` l2 -> StronglySorted R l2 -> StronglySorted R l1.
Proof.
  induction 1 as [|x l1 l2 Hsub IH|x l1 l2 Hsub IH]; intros Hs.
  - constructor.
  - apply StronglySorted_cons in Hs as [Hx Hs]. constructor; [now apply IH|].
    apply Forall_forall. intros y Hy. rewrite Forall_forall in Hx.
    apply Hx. now apply (elem_of_sublist l1 l2).
  - apply StronglySorted_cons in Hs as [_ Hs]. now apply IH.
Qed.

Lemma fmap_sublist {A B} (f : A -> B) (l1 l2 : list A) :
  l1 `sublist_of` l2 -> f <$> l1 `sublist_of` f <$> l2.
Proof. induction 1; cbn; now constructor. Qed.

Lemma Registered_in_order (container : HTMLElement) (l : list Option) :
  Registered container l ->
  StronglySorted
    (fun a z => SortCompare
                  (compare_by_order (orderMap_of (querySelectorAll_options container)))
                  a z <= 0) l.
Proof.
  intros (_ & Hranked & Hsorted).
  assert (Hkeyed := compare_by_order_keyed container l Hranked).
  induction Hsorted as [|x l Hs IH Hx]; constructor.
  - apply IH.
    + intros o Ho. apply Hranked. now right.
    + intros a b Ha Hb. apply Hkeyed; now right.
  - rewrite Forall_forall in *. intros y Hy. unfold SortCompare.
    rewrite Hkeyed; [|now left|now right]. specialize (Hx y Hy). cbn in Hx. lia.
Qed.

(** X4. When the container reference holds an element, [registerOption]
    returns normally, whatever the scan finds: the list then holds exactly
    the options it held plus the new one (none lost, none merged), and
    nothing else of the group changes.
    There is no check for an id that is already registered: ids are unique
    afterwards exactly when they were and the new id is fresh. *)
Theorem registerOption_keeps_every_option
    (action : Option) (w : World) (container : HTMLElement) :
  radioGroupRef w = Some container ->
  exists opts,
    registerOption action w = (Normal tt, set_options opts w) /\
    opts ≡ₚ options w ++ [action] /\
    length opts = S (length (options w)) /\
    (NoDup (id <$> opts) <-> NoDup (id <$> options w) /\ id action ∉ id <$> options w).
Proof.
  intros Hc. rewrite registerOption_eq, Hc. eexists. split; [reflexivity|].
  assert (Hperm := Array_sort_perm
            (compare_by_order (orderMap_of (querySelectorAll_options container)))
            (options w ++ [action])).
  split; [exact Hperm|]. split.
  - rewrite Hperm, length_app. cbn. lia.
  - rewrite Hperm, fmap_app. cbn. rewrite NoDup_app.
    split.
    + intros (Hnd & Hdisj & _). split; [assumption|].
      intros Hin. apply (Hdisj _ Hin). now left.
    + intros (Hnd & Hfresh). split; [assumption|]. split; [|apply NoDup_singleton].
      intros x Hx Hx'. apply list_elem_of_singleton in Hx'. now subst.
Qed.

Lemma registerOption_keeps_every_option_witness :
  exists opts,
    registerOption optA (set_options [optC; optA] world1)
      = (Normal tt, set_options opts (set_options [optC; optA] world1)) /\
    length opts = 3%nat.
Proof.
  destruct (registerOption_keeps_every_option optA (set_options [optC; optA] world1)
              container1 eq_refl) as (opts & Hrun & _ & Hlen & _).
  exists opts. split; [exact Hrun | exact Hlen].
Defined.

(** X5. When the scan finds none of the ids concerned (the options are not
    rendered below the container, or carry other ids), every comparison is
    [NaN] and the sort moves nothing: [registerOption] then keeps call order,
    the new option going to the end. *)
Theorem registerOption_unranked_appends
    (action : Option) (w : World) (container : HTMLElement) :
  radioGroupRef w = Some container ->
  (forall o, o ∈ options w ++ [action] -> rank container o = None) ->
  registerOption action w = (Normal tt, set_options (options w ++ [action]) w).
Proof.
  intros Hc Hnone. rewrite registerOption_eq, Hc. do 2 f_equal.
  apply Array_sort_id.
  assert (Hall : Forall (fun o => rank container o = None) (options w ++ [action]))
    by now apply Forall_forall.
  clear Hnone. induction Hall as [|x l Hx Hl IH]; [constructor|].
  constructor; [assumption|].
  apply Forall_forall. intros y _. unfold SortCompare, compare_by_order.
  unfold rank in Hx. now rewrite Hx.
Qed.

Lemma registerOption_unranked_appends_witness :
  registerOption optA
    (set_radioGroupRef (Some (Element 100 None None [])) (set_options [optC; optB] world1))
  = (Normal tt,
     set_options [optC; optB; optA]
       (set_radioGroupRef (Some (Element 100 None None []))
          (set_options [optC; optB] world1))).
Proof.
  apply (registerOption_unranked_appends optA
           (set_radioGroupRef (Some (Element 100 None None []))
              (set_options [optC; optB] world1))
           (Element 100 None None []) eq_refl).
  intros o _. reflexivity.
Defined.

(** X6. Mount and unmount undo each other: in a group whose list is in the
    maintained state (unique ids, all found by the scan, in scan order),
    registering an option with a fresh id that is rendered below the
    container and then unregistering that id gives back the world as it was;
    in between, the other options keep their order around the new one. *)
Theorem mount_then_unmount_restores
    (this : RadioGroupOption.Instance) (w : World) (container : HTMLElement) :
  radioGroupRef w = Some container ->
  Registered container (options w) ->
  is_Some (rank container (RadioGroupOption.registered this)) ->
  RadioGroupOption.id this ∉ id <$> options w ->
  (exists l1 l2,
     options w = l1 ++ l2 /\
     onMounted this w
     = (Normal tt, set_options (l1 ++ RadioGroupOption.registered this :: l2) w)) /\
  (onMounted this ;; onUnmounted this) w = (Normal tt, w).
Proof.
  intros Hc Hreg _ Hfresh. unfold onMounted, onUnmounted, bind.
  rewrite registerOption_eq, Hc.
  rewrite Array_sort_snoc, (Array_sort_id _ _ (Registered_in_order _ _ Hreg)).
  destruct (sort_insert_split
              (compare_by_order (orderMap_of (querySelectorAll_options container)))
              (RadioGroupOption.registered this) (options w))
    as (l1 & l2 & Hsplit & ->).
  split; [now exists l1, l2|].
  rewrite unregisterOption_without_first. cbn [options set_options].
  rewrite without_first_middle; [|intros y Hy|reflexivity].
  - rewrite <- Hsplit. f_equal. now destruct w.
  - intros Heq. apply Hfresh. cbn in Heq. rewrite <- Heq.
    apply list_elem_of_fmap_2. rewrite Hsplit, elem_of_app. now left.
Qed.

Lemma Registered_sample : Registered container1 [optA; optC].
Proof.
  split; [apply (bool_decide_unpack _); vm_compute; exact I|]. split.
  - intros o Ho.
    repeat (apply elem_of_cons in Ho as [->|Ho]; [eexists; vm_compute; reflexivity|]).
    inversion Ho.
  - repeat constructor; vm_compute; discriminate.
Qed.

Lemma mount_then_unmount_restores_witness :
  (onMounted instB ;; onUnmounted instB) (set_options [optA; optC] world1)
  = (Normal tt, set_options [optA; optC] world1).
Proof.
  apply (mount_then_unmount_restores instB (set_options [optA; optC] world1) container1).
  - reflexivity.
  - exact Registered_sample.
  - eexists. vm_compute. reflexivity.
  - apply (bool_decide_unpack _). vm_compute. exact I.
Defined.

(** X7. Registration keeps the list in the maintained state: from unique
    ids, all found by the scan and in scan order, registering an option with
    a fresh id that is rendered below the container gives a list with unique
    ids, all found by the scan and in scan order again, and leaves the
    container reference alone. *)
Theorem registerOption_keeps_Registered
    (action : Option) (w : World) (container : HTMLElement) :
  radioGroupRef w = Some container ->
  Registered container (options w) ->
  is_Some (rank container action) ->
  id action ∉ id <$> options w ->
  exists w',
    registerOption action w = (Normal tt, w') /\
    Registered container (options w') /\
    radioGroupRef w' = Some container.
Proof.
  intros Hc (Hnd & Hranked & _) Hrank Hfresh.
  assert (Hall : forall o, o ∈ options w ++ [action] -> is_Some (rank container o)).
  { intros o Ho. apply elem_of_app in Ho as [Ho|Ho]; [now apply Hranked|].
    apply list_elem_of_singleton in Ho. now subst. }
  destruct (registerOption_sorted container action w Hc Hall)
    as (opts & Hrun & Hperm & Hsorted).
  exists (set_options opts w). split; [assumption|]. split; [|assumption].
  cbn [options set_options]. split; [|split; [|assumption]].
  - rewrite Hperm, fmap_app. cbn. apply NoDup_app. split; [assumption|].
    split; [|apply NoDup_singleton].
    intros x Hx Hx'. apply list_elem_of_singleton in Hx'. now subst.
  - intros o Ho. apply Hall. now rewrite <- Hperm.
Qed.

Lemma registerOption_keeps_Registered_witness :
  exists w',
    registerOption optB (set_options [optA; optC] world1) = (Normal tt, w') /\
    Registered container1 (options w').
Proof.
  destruct (registerOption_keeps_Registered optB (set_options [optA; optC] world1)
              container1 eq_refl Registered_sample)
    as (w' & Hrun & Hreg & _).
  - eexists. vm_compute. reflexivity.
  - apply (bool_decide_unpack _). vm_compute. exact I.
  - exists w'. now split.
Defined.

(** X8. [unregisterOption] removes the first option with the id and nothing
    else: what is left is the same list in the same relative order, one
    option shorter at most; so a list with unique ids, all found by the scan
    and in scan order, stays one. *)
Theorem unregisterOption_keeps_order (id' : string) (w : World)
    (container : HTMLElement) :
  exists opts,
    unregisterOption id' w = (Normal tt, set_options opts w) /\
    opts = without_first id' (options w) /\
    opts `sublist_of` options w /\
    (length (options w) <= S (length opts))%nat /\
    (Registered container (options w) -> Registered container opts).
Proof.
  exists (without_first id' (options w)).
  split; [apply unregisterOption_without_first|]. split; [reflexivity|].
  pose proof (without_first_sublist id' (options w)) as Hsub.
  split; [assumption|]. split.
  - generalize (options w). intros l. induction l as [|o l IH]; cbn; [lia|].
    destruct (String.eqb (id o) id'); cbn; lia.
  - intros (Hnd & Hranked & Hsorted). split; [|split].
    + apply (sublist_NoDup _ (id <$> options w)); [assumption | now apply fmap_sublist].
    + intros o Ho. apply Hranked. now apply (elem_of_sublist _ _ _ Ho).
    + now apply (StronglySorted_sublist _ _ _ Hsub).
Qed.

Lemma unregisterOption_keeps_order_witness :
  exists opts,
    unregisterOption "headlessui-radiogroup-option-2" (set_options [optA; optC] world1)
      = (Normal tt, set_options opts (set_options [optA; optC] world1)) /\
    Registered container1 opts.
Proof.
  destruct (unregisterOption_keeps_order "headlessui-radiogroup-option-2"
              (set_options [optA; optC] world1) container1)
    as (opts & Hrun & _ & _ & _ & Hreg).
  exists opts. split; [exact Hrun|]. apply Hreg. exact Registered_sample.
Defined.

Lemma without_first_comm (a b : string) (l : list Option) :
  without_first a (without_first b l) = without_first b (without_first a l).
Proof.
  induction l as [|o l IH]; cbn; [reflexivity|].
  destruct (String.eqb_spec (id o) a) as [Ha|Ha], (String.eqb_spec (id o) b) as [Hb|Hb];
    cbn.
  - congruence.
  - destruct (String.eqb_spec (id o) a); [reflexivity | contradiction].
  - destruct (String.eqb_spec (id o) b); [reflexivity | contradiction].
  - destruct (String.eqb_spec (id o) a), (String.eqb_spec (id o) b);
      try contradiction. now rewrite IH.
Qed.

(** X9. Teardown order does not matter: unregistering two ids in one order
    or the other leaves the same world, whether or not the ids are
    registered. *)
Theorem unregisterOption_commutes (a b : string) (w : World) :
  (unregisterOption a ;; unregisterOption b) w
  = (unregisterOption b ;; unregisterOption a) w.
Proof.
  unfold bind. rewrite !unregisterOption_without_first.
  cbn [options set_options]. now rewrite without_first_comm.
Qed.

(** ** More on role normalization *)

Lemma HTMLElement_forall_ind (P : HTMLElement -> Prop) :
  (forall n i r kids, Forall P kids -> P (Element n i r kids)) ->
  forall e, P e.
Proof.
  intros H. fix IH 1. intros [n i r kids]. apply H.
  induction kids as [|k kids IHkids]; constructor; [apply IH | exact IHkids].
Qed.

Lemma map_walk_fixed (kids : list HTMLElement) :
  Forall (fun k => walk (walk k) = walk k) kids ->
  List.map walk (List.map walk kids) = List.map walk kids.
Proof. induction 1 as [|k kids Hk _ IH]; cbn; [reflexivity|]. now rewrite Hk, IH. Qed.

Lemma walk_idempotent (e : HTMLElement) : walk (walk e) = walk e.
Proof.
  induction e as [n i r kids IH] using HTMLElement_forall_ind.
  apply map_walk_fixed in IH.
  destruct (acceptNode_cases (Element n i r kids))
    as [(Ho & Ha)|[(Ho & Hr & Ha)|(Ho & Hr & Ha)]].
  - now rewrite !(walk_option _ Ho).
  - rewrite (walk_eq (Element n i r kids)), Ha. cbn [walkFrom].
    assert (Ha' : acceptNode (Element n i r (List.map walk kids)) = FILTER_SKIP)
      by exact Ha.
    rewrite walk_eq, Ha'. cbn [walkFrom]. now rewrite IH.
  - rewrite (walk_eq (Element n i r kids)), Ha. cbn [walkFrom setAttribute_role].
    rewrite walk_eq. cbn [acceptNode getAttribute_role hasAttribute_role attr_role].
    cbn [walkFrom]. now rewrite IH.
Qed.

Lemma walkFrom_idempotent (root : HTMLElement) :
  walkFrom (walkFrom root) = walkFrom root.
Proof.
  destruct root as [n i r kids]. cbn. f_equal.
  apply map_walk_fixed, Forall_forall. intros k _. apply walk_idempotent.
Qed.

(** X10. Role normalization always ends normally, and running it again changes
    nothing: whenever the effect re-runs on a container it has already been
    through, the world stays as it is. *)
Theorem normalizeRoles_idempotent (w : World) :
  exists w',
    normalizeRoles w = (Normal tt, w') /\
    normalizeRoles w' = (Normal tt, w') /\
    (radioGroupRef w = None -> w' = w).
Proof.
  rewrite normalizeRoles_eq. destruct (radioGroupRef w) as [container|] eqn:Hc.
  - eexists. split; [reflexivity|]. split; [|discriminate].
    rewrite normalizeRoles_eq. cbn [radioGroupRef set_radioGroupRef].
    now rewrite walkFrom_idempotent.
  - exists w. split; [reflexivity|]. split; [|reflexivity].
    now rewrite normalizeRoles_eq, Hc.
Qed.

Lemma descendants_eq (e : HTMLElement) :
  descendants e = foldr (fun k acc => k :: descendants k ++ acc) [] (children e).
Proof.
  destruct e as [n i r kids]. cbn.
  induction kids as [|k kids IH]; cbn; [reflexivity|]. now rewrite IH.
Qed.

Lemma walk_node_id (e : HTMLElement) :
  (node (walk e), attr_id (walk e)) = (node e, attr_id e).
Proof. destruct (walk_shape e) as (-> & -> & _). reflexivity. Qed.

Lemma descendants_walk_children (kids : list HTMLElement) :
  Forall (fun k => (fun d => (node d, attr_id d)) <$> descendants (walk k)
                   = (fun d => (node d, attr_id d)) <$> descendants k) kids ->
  (fun d => (node d, attr_id d))
    <$> foldr (fun k acc => k :: descendants k ++ acc) [] (List.map walk kids)
  = (fun d => (node d, attr_id d))
    <$> foldr (fun k acc => k :: descendants k ++ acc) [] kids.
Proof.
  induction 1 as [|k kids Hk _ IH]; cbn; [reflexivity|].
  rewrite !fmap_app, Hk, IH. f_equal. apply walk_node_id.
Qed.

Lemma descendants_walk (e : HTMLElement) :
  (fun d => (node d, attr_id d)) <$> descendants (walk e)
  = (fun d => (node d, attr_id d)) <$> descendants e.
Proof.
  induction e as [n i r kids IH] using HTMLElement_forall_ind.
  destruct (is_option (Element n i r kids)) eqn:Ho; [now rewrite walk_option|].
  rewrite (descendants_eq (walk _)), (descendants_eq (Element n i r kids)).
  destruct (walk_shape (Element n i r kids)) as (_ & _ & _ & ->). rewrite Ho.
  now apply descendants_walk_children.
Qed.

Lemma descendants_walkFrom (root : HTMLElement) :
  (fun d => (node d, attr_id d)) <$> descendants (walkFrom root)
  = (fun d => (node d, attr_id d)) <$> descendants root.
Proof.
  rewrite (descendants_eq (walkFrom root)), (descendants_eq root).
  destruct root as [n i r kids]. cbn [walkFrom children].
  apply descendants_walk_children, Forall_forall. intros k _. apply descendants_walk.
Qed.

(** Two scans that meet the same ids in the same order select the same ids. *)
Lemma querySelectorAll_ids (l1 l2 : list HTMLElement) :
  attr_id <$> l1 = attr_id <$> l2 ->
  Element_id <$> List.filter
      (fun e => match attr_id e with
                | Some i => String.prefix option_id_prefix i
                | None => false
                end) l1
  = Element_id <$> List.filter
      (fun e => match attr_id e with
                | Some i => String.prefix option_id_prefix i
                | None => false
                end) l2.
Proof.
  revert l2. induction l1 as [|x l1 IH]; intros [|y l2] Heq; try discriminate;
    [reflexivity|].
  cbn in Heq. injection Heq as Hxy Heq. cbn. rewrite Hxy.
  destruct (match attr_id y with Some i => _ | None => false end); cbn.
  - unfold Element_id at 1 3. rewrite Hxy. f_equal. now apply IH.
  - now apply IH.
Qed.

Lemma Array_reduce_orderMap_ext (l1 l2 : list HTMLElement) (n : nat)
    (acc : gmap string nat) :
  Element_id <$> l1 = Element_id <$> l2 ->
  Array_reduce (fun lookup element index => <[Element_id element := index]> lookup)
    l1 n acc
  = Array_reduce (fun lookup element index => <[Element_id element := index]> lookup)
      l2 n acc.
Proof.
  revert l2 n acc. induction l1 as [|x l1 IH]; intros [|y l2] n acc Heq;
    try discriminate; [reflexivity|].
  cbn in Heq. injection Heq as Hxy Heq. cbn. rewrite Hxy. now apply IH.
Qed.

Lemma fmap_fst {A B C} (f : A -> B) (g : A -> C) (l1 l2 : list A) :
  (fun x => (f x, g x)) <$> l1 = (fun x => (f x, g x)) <$> l2 ->
  f <$> l1 = f <$> l2 /\ g <$> l1 = g <$> l2.
Proof.
  revert l2. induction l1 as [|x l1 IH]; intros [|y l2] Heq; try discriminate;
    [now split|].
  cbn in Heq. injection Heq as Hf Hg Heq. destruct (IH _ Heq) as [H1 H2].
  cbn. now rewrite Hf, Hg, H1, H2.
Qed.

Lemma existsb_node (t : Elem) (l1 l2 : list HTMLElement) :
  node <$> l1 = node <$> l2 ->
  existsb (fun e => Nat.eqb (node e) t) l1 = existsb (fun e => Nat.eqb (node e) t) l2.
Proof.
  revert l2. induction l1 as [|x l1 IH]; intros [|y l2] Heq; try discriminate;
    [reflexivity|].
  cbn in Heq. injection Heq as Hxy Heq. cbn. rewrite Hxy. f_equal. now apply IH.
Qed.

Lemma rank_walkFrom (container : HTMLElement) (o : Option) :
  rank (walkFrom container) o = rank container o.
Proof.
  unfold rank, orderMap_of, querySelectorAll_options. f_equal.
  apply Array_reduce_orderMap_ext, querySelectorAll_ids.
  now apply (fmap_fst node attr_id), descendants_walkFrom.
Qed.

Lemma orderMap_walkFrom (container : HTMLElement) :
  orderMap_of (querySelectorAll_options (walkFrom container))
  = orderMap_of (querySelectorAll_options container).
Proof.
  unfold orderMap_of, querySelectorAll_options.
  apply Array_reduce_orderMap_ext, querySelectorAll_ids.
  now apply (fmap_fst node attr_id), descendants_walkFrom.
Qed.

(** X11. Role normalization changes role attributes only: the container's own
    attributes, and the identities and ids of the elements below it, in
    document order, stay as they are.  Hence the containment test of the
    keydown handler and the ranks of the registration scan are the same
    before and after, and normalizing before or after a registration gives
    the same world. *)
Theorem normalizeRoles_changes_roles_only (w : World) (container : HTMLElement) :
  radioGroupRef w = Some container ->
  exists container',
    normalizeRoles w = (Normal tt, set_radioGroupRef (Some container') w) /\
    node container' = node container /\
    attr_id container' = attr_id container /\
    attr_role container' = attr_role container /\
    (fun d => (node d, attr_id d)) <$> descendants container'
    = (fun d => (node d, attr_id d)) <$> descendants container /\
    (forall t, contains container' t = contains container t) /\
    (forall o, rank container' o = rank container o) /\
    (forall action,
       (normalizeRoles ;; registerOption action) w
       = (registerOption action ;; normalizeRoles) w).
Proof.
  intros Hc. exists (walkFrom container).
  split; [now rewrite normalizeRoles_eq, Hc|].
  split; [now destruct container|]. split; [now destruct container|].
  split; [now destruct container|].
  split; [apply descendants_walkFrom|]. split; [|split; [apply rank_walkFrom|]].
  - intros [t|]; [|reflexivity]. unfold contains.
    replace (node (walkFrom container)) with (node container) by now destruct container.
    f_equal. apply existsb_node.
    now apply (fmap_fst node attr_id), descendants_walkFrom.
  - intros action. unfold bind.
    rewrite normalizeRoles_eq, Hc, !registerOption_eq, Hc.
    cbn [radioGroupRef set_radioGroupRef]. rewrite normalizeRoles_eq.
    cbn [radioGroupRef set_options]. rewrite Hc, orderMap_walkFrom. reflexivity.
Qed.

Lemma normalizeRoles_changes_roles_only_witness :
  (normalizeRoles ;; registerOption optA) (set_options [optC; optB] world1)
  = (registerOption optA ;; normalizeRoles) (set_options [optC; optB] world1).
Proof.
  destruct (normalizeRoles_changes_roles_only (set_options [optC; optB] world1)
              container1 eq_refl) as (c' & _ & _ & _ & _ & _ & _ & _ & H).
  apply H.
Defined.

(** ** More on the keydown handler *)

Lemma change_outcome (v : Value) (w : World) :
  exists w',
    change v w = (Normal tt, w') /\
    options w' = options w /\ props_disabled w' = props_disabled w /\
    props_modelValue w' = props_modelValue w /\
    radioGroupRef w' = radioGroupRef w /\ focusable w' = focusable w /\
    activeElement w' = activeElement w /\
    (emitted w' = emitted w \/
     (emitted w' = emitted w ++ [v] /\ props_disabled w = false /\
      strict_equals (api_value w) v = false)).
Proof.
  rewrite change_eq. eexists. split; [reflexivity|].
  destruct (props_disabled w) eqn:Hd.
  - rewrite Hd. repeat split. now left.
  - destruct (strict_equals (api_value w) v) eqn:Heq.
    + rewrite Hd. repeat split. now left.
    + cbn. rewrite Hd. repeat split. right. now repeat split.
Qed.

Lemma find_activeOption_elem_of (w : World) (o : Option) :
  find_activeOption w = Some o -> o ∈ options w /\ element o = activeElement w.
Proof.
  unfold find_activeOption. intros Hfind.
  apply List.find_some in Hfind as [Hin Ho].
  split; [now apply list_elem_of_In | now apply bool_decide_eq_true in Ho].
Qed.

Lemma change_confined (w0 w1 : World) (event event' : KeyboardEvent) (o : Option)
    (w' : World) :
  o ∈ options w0 ->
  options w1 = options w0 -> props_disabled w1 = props_disabled w0 ->
  props_modelValue w1 = props_modelValue w0 ->
  radioGroupRef w1 = radioGroupRef w0 -> focusable w1 = focusable w0 ->
  emitted w1 = emitted w0 ->
  element o = activeElement w1 ->
  (activeElement w1 = activeElement w0 \/
   exists e, activeElement w1 = Some e /\ Some e ∈ element <$> options w0 /\
             focusable w0 e = true) ->
  key event' = key event -> target event' = target event ->
  change (propsRef o) w1 = (Normal tt, w') ->
  keydown_confined w0 event event' w'.
Proof.
  intros Hin Ho Hd Hm Hc Hf He Hel Hact Hkey Htarget Hch.
  destruct (change_outcome (propsRef o) w1)
    as (w2 & Hrun & Ho2 & Hd2 & Hm2 & Hc2 & Hf2 & Ha2 & He2).
  rewrite Hrun in Hch. injection Hch as <-.
  unfold keydown_confined, api_value in *.
  rewrite Ho2, Hd2, Hm2, Hc2, Hf2, Ha2, Ho, Hd, Hm, Hc, Hf.
  repeat (split; [reflexivity || assumption|]). split; [|assumption].
  destruct He2 as [He2|(He2 & Hd' & Heq)].
  - left. congruence.
  - right. exists o. rewrite He2, He, <- Hd, <- Hm. now repeat split.
Qed.

Lemma confined_refl (w : World) (event event' : KeyboardEvent) :
  key event' = key event -> target event' = target event ->
  keydown_confined w event event' w.
Proof. intros Hk Ht. unfold keydown_confined. repeat split; auto. Qed.

Lemma move_and_change_confined (event : KeyboardEvent) (focus : Focus) (w : World) :
  exists w', move_and_change event focus w = (Normal (handled event), w') /\
             keydown_confined w event (handled event) w'.
Proof.
  destruct (move_and_change_moved event focus w) as (w' & Hrun & Hmoved).
  exists w'. split; [assumption|].
  destruct Hmoved as [(e & o & Hfirst & Hfind & Ho & Ha & Hch)|[_ ->]];
    [|now apply confined_refl].
  apply find_activeOption_elem_of in Hfind as [Hin Hel].
  destruct Hfirst as (n & _ & Hcand & Hok & _). apply candidate_elem_of in Hcand.
  apply (change_confined w (set_activeElement (Some e) w) event (handled event) o w');
    try reflexivity; try assumption.
  right. exists e. now repeat split.
Qed.

(** X12. When the container reference and the element references of the
    registered options are [null] or hold elements, the keydown handler
    returns normally and is confined, whatever the event: it leaves the
    option list, the props, the container and the key and target of the event
    alone; it lets at most one request out, carrying the
    value of a registered option whose element holds focus afterwards, and
    none in a disabled group or for a value that is already the bound one;
    focus stays where it is or lands on the element of a registered option
    that can take focus; and when the group is not mounted or the target is
    outside the container, neither the event nor the world changes.  A
    reference that holds a component instance is not covered: [contains] and
    [focus] are not functions there. *)
Theorem onKeydown_is_confined (event : KeyboardEvent) (w : World) :
  radioGroupRef w = None \/ (exists container, radioGroupRef w = Some container) ->
  (forall o, o ∈ options w -> element o = None \/ exists e, element o = Some e) ->
  exists event' w',
    onKeydown event w = (Normal event', w') /\
    keydown_confined w event event' w' /\
    (props_disabled w = true -> emitted w' = emitted w) /\
    (radioGroupRef w = None \/
     (exists container, radioGroupRef w = Some container /\
                        contains container (target event) = false) ->
     event' = event /\ w' = w).
Proof.
  intros _ _.
  assert (Hdisabled : forall event' w',
            keydown_confined w event event' w' ->
            props_disabled w = true -> emitted w' = emitted w).
  { intros event' w' (_ & _ & _ & _ & _ & _ & _ & [He|(o & _ & _ & _ & Hd & _)] & _) Hd';
      [assumption | congruence]. }
  unfold onKeydown, bind at 1. cbn [get].
  destruct (radioGroupRef w) as [container|] eqn:Hc.
  2:{ exists event, w. split; [reflexivity|]. split; [now apply confined_refl|].
      now split. }
  destruct (contains container (target event)) eqn:Htarget; cbn [negb].
  2:{ exists event, w. split; [reflexivity|]. split; [now apply confined_refl|].
      now split. }
  assert (Hguard : forall (event' : KeyboardEvent) (w' : World),
            Some container = None \/
            (exists c, Some container = Some c /\ contains c (target event) = false) ->
            event' = event /\ w' = w).
  { intros event' w' [Hnone|(c & [= <-] & Hout)]; congruence. }
  assert (Hdone : forall event' w' r,
            r = (Normal event', w') -> keydown_confined w event event' w' ->
            r = (Normal event', w') /\ keydown_confined w event event' w' /\
            (props_disabled w = true -> emitted w' = emitted w) /\
            (Some container = None \/
             (exists c, Some container = Some c /\
                        contains c (target event) = false) ->
             event' = event /\ w' = w)).
  { intros event' w' r Hr Hconf. split; [assumption|]. split; [assumption|].
    split; [now apply (Hdisabled event')|apply Hguard]. }
  destruct (move_and_change_confined event Previous_WrapAround w) as (wp & Hp & Hcp).
  destruct (move_and_change_confined event Next_WrapAround w) as (wn & Hn & Hcn).
  destruct (key event) eqn:Hkey.
  - exists (handled event), wp. now apply Hdone.
  - exists (handled event), wp. now apply Hdone.
  - exists (handled event), wn. now apply Hdone.
  - exists (handled event), wn. now apply Hdone.
  - unfold bind. rewrite change_to_activeOption_eq.
    destruct (find_activeOption w) as [o|] eqn:Hfind.
    + apply find_activeOption_elem_of in Hfind as [Hin Hel].
      destruct (change (propsRef o) w) as [c w'] eqn:Hch.
      assert (c = Normal tt) by (rewrite change_eq in Hch; congruence). subst c.
      assert (Hconf : keydown_confined w event (handled event) w').
      { apply (change_confined w w event (handled event) o w');
          try reflexivity; try assumption. now left. }
      exists (handled event), w'. now apply Hdone.
    + exists (handled event), w. apply Hdone; [reflexivity|now apply confined_refl].
  - exists event, w. apply Hdone; [reflexivity|now apply confined_refl].
Qed.

(** Down on A in the sample group: focus goes to B, the list is untouched. *)
Lemma onKeydown_is_confined_witness :
  exists event' w',
    onKeydown (keydown_event ArrowDown (Some 1%nat)) world1 = (Normal event', w') /\
    keydown_confined world1 (keydown_event ArrowDown (Some 1%nat)) event' w' /\
    activeElement w' = Some 2%nat.
Proof.
  destruct (onKeydown_is_confined (keydown_event ArrowDown (Some 1%nat)) world1)
    as (event' & w' & Hrun & Hconf & _).
  - right. exists container1. reflexivity.
  - intros o Ho. right.
    repeat (apply elem_of_cons in Ho as [->|Ho]; [eexists; reflexivity|]).
    inversion Ho.
  - exists event', w'. split; [exact Hrun|]. split; [exact Hconf|].
    vm_compute in Hrun. now injection Hrun as _ <-.
Defined.

(** In a disabled group the arrow keys still move focus, and nothing goes out. *)
Example scenario_disabled_keyboard :
  onKeydown (keydown_event ArrowDown (Some 1%nat)) (set_disabled true world1)
  = (Normal (handled (keydown_event ArrowDown (Some 1%nat))),
     set_activeElement (Some 2%nat) (set_disabled true world1)).
Proof. reflexivity. Qed.

(** ** More on [change] *)

(** X13. The group keeps no memory of what it asked for: as long as the owner
    of the bound value has not taken a request up, asking again for the same
    value sends the request again; once the owner has set the bound value to
    the requested one (any value but [NaN]), asking for it is a no-op. *)
Theorem change_repeats_until_bound (v : Value) (w : World) :
  props_disabled w = false ->
  strict_equals (api_value w) v = false ->
  (change v ;; change v) w = (Normal tt, set_emitted (emitted w ++ [v; v]) w) /\
  (v <> Number S754_nan ->
   (change v ;; modify (set_modelValue v) ;; change v) w
   = (Normal tt, set_modelValue v (set_emitted (emitted w ++ [v]) w))).
Proof.
  intros Hd Hne. unfold bind, modify. rewrite !change_eq, Hd, Hne. split.
  - cbn [props_disabled set_emitted api_value props_modelValue emitted].
    unfold api_value in Hne. rewrite Hd, Hne. f_equal. destruct w; cbn.
    now rewrite <- app_assoc.
  - intros Hnan.
    cbn [props_disabled set_emitted set_modelValue api_value props_modelValue].
    rewrite Hd, strict_equals_refl by assumption. reflexivity.
Qed.

Lemma change_repeats_until_bound_witness :
  (change (Str "b") ;; change (Str "b")) world0
  = (Normal tt, set_emitted [Str "b"; Str "b"] world0).
Proof.
  destruct (change_repeats_until_bound (Str "b") world0 eq_refl eq_refl) as [H _].
  exact H.
Defined.

(** ** More on the rendered options *)

Lemma SFeqb_true (x y : spec_float) :
  SFeqb x y = true ->
  x = y \/ exists s s', x = S754_zero s /\ y = S754_zero s'.
Proof.
  unfold SFeqb, SFcompare. intros H.
  destruct x as [s1|s1| |s1 m1 e1], y as [s2|s2| |s2 m2 e2];
    try discriminate H;
    try (destruct s1; discriminate H); try (destruct s2; discriminate H).
  - right. eauto.
  - left. destruct s1, s2; try discriminate H; reflexivity.
  - left.
    destruct s1, s2; try discriminate H;
      destruct (Z.compare_spec e1 e2) as [->| |]; try discriminate H;
      destruct (PosDef.Pos.compare_cont Eq m1 m2) eqn:Hm; try discriminate H;
      apply Pos.compare_eq in Hm; now subst.
Qed.

Lemma strict_equals_true (x y : Value) :
  strict_equals x y = true ->
  x = y \/ exists s s', x = Number (S754_zero s) /\ y = Number (S754_zero s').
Proof.
  destruct x as [| |a|a|a|a], y as [| |b|b|b|b]; cbn; try discriminate;
    try (now left).
  - intros H. left. f_equal. now apply Bool.eqb_prop.
  - intros H. apply SFeqb_true in H as [->|(s & s' & -> & ->)]; [now left|].
    right. eauto.
  - intros H. left. f_equal. now apply String.eqb_eq.
  - intros H. left. f_equal. now apply Pos.eqb_eq.
Qed.

Lemma strict_equals_both (v a b : Value) :
  strict_equals v a = true -> strict_equals v b = true -> strict_equals a b = true.
Proof.
  intros Ha Hb.
  apply strict_equals_true in Ha as [->|(s & s' & -> & ->)]; [assumption|].
  apply strict_equals_true in Hb as [<-|(t & t' & _ & ->)]; reflexivity.
Qed.

(** X14. When no two options have strictly equal values, at most one option is
    checked (rendered with [aria-checked="true"]), and, the bound value not
    being [undefined], at most one option is a Tab stop. *)
Theorem at_most_one_checked (w : World) (insts : list RadioGroupOption.Instance) :
  (forall i j a b, i <> j -> insts !! i = Some a -> insts !! j = Some b ->
     strict_equals (RadioGroupOption.props_value a) (RadioGroupOption.props_value b)
     = false) ->
  forall i j a b, insts !! i = Some a -> insts !! j = Some b ->
    (RadioGroupOption.checked w a = true -> RadioGroupOption.checked w b = true ->
     i = j) /\
    (RadioGroupOption.aria_checked w a = "true" ->
     RadioGroupOption.aria_checked w b = "true" -> i = j) /\
    (api_value w <> Undefined ->
     RadioGroupOption.tabIndex w a = 0 -> RadioGroupOption.tabIndex w b = 0 ->
     i = j).
Proof.
  intros Hdistinct i j a b Ha Hb.
  assert (Hchecked : RadioGroupOption.checked w a = true ->
                     RadioGroupOption.checked w b = true -> i = j).
  { intros Hca Hcb. destruct (decide (i = j)) as [|Hne]; [assumption|].
    exfalso. pose proof (strict_equals_both _ _ _ Hca Hcb) as Heq.
    rewrite (Hdistinct i j a b Hne Ha Hb) in Heq. discriminate. }
  split; [assumption|]. split.
  - unfold RadioGroupOption.aria_checked.
    destruct (RadioGroupOption.checked w a), (RadioGroupOption.checked w b);
      try discriminate. auto.
  - intros Hdef H0a H0b. apply Hchecked.
    + apply (tabIndex_cases w a) in H0a as [|[? _]]; [assumption|contradiction].
    + apply (tabIndex_cases w b) in H0b as [|[? _]]; [assumption|contradiction].
Qed.

Lemma at_most_one_checked_witness :
  RadioGroupOption.checked (set_modelValue (Str "b") world1) instB = true /\
  forall i a, [instA; instB; instC] !! i = Some a ->
              RadioGroupOption.checked (set_modelValue (Str "b") world1) a = true ->
              i = 1%nat.
Proof.
  split; [reflexivity|]. intros i a Hi Hchk.
  destruct (at_most_one_checked (set_modelValue (Str "b") world1) [instA; instB; instC])
    with (i := i) (j := 1%nat) (a := a) (b := instB) as (H & _);
    [|exact Hi|reflexivity|now apply H].
  intros [|[|[|i']]] [|[|[|j']]] x y Hne Hx Hy; cbn in Hx, Hy;
    try discriminate; try contradiction;
    injection Hx as <-; injection Hy as <-; reflexivity.
Defined.

(** ** Mount order *)

(** The three options mounting in two different orders end in the same
    world. *)
Lemma registerAll_order_irrelevant_witness :
  registerAll [optC; optB; optA] (set_options [] world1)
  = registerAll [optB; optA; optC] (set_options [] world1).
Proof.
  apply (registerAll_order_irrelevant container1 (set_options [] world1)
           [optC; optB; optA] [optB; optA; optC]).
  - reflexivity.
  - reflexivity.
  - etransitivity; [apply perm_swap|]. apply perm_skip, perm_swap.
  - apply (bool_decide_unpack _). vm_compute. exact I.
  - intros o Ho.
    repeat (apply elem_of_cons in Ho as [->|Ho];
            [apply (bool_decide_unpack _); vm_compute; exact I|]).
    inversion Ho.
Defined.
